(** * Rock-Paper-Scissors gesture game: the web front end

    A shallow embedding of the two [Home] components of the repository:

    - the polling variant (the page router that polls [GET /state] once per
      second and renders one of four pages), in [Module Polling];
    - the stream-only variant ([web/src/Home.jsx]), in [Module Stream];

    together with the gesture classifier and the round outcome of the
    client-only variant, whose code is not part of the sources at hand and
    is modelled from the specification, in [Module Gesture].

    React state is a record, the setters are recorded as calls and applied
    by [dispatch]; the event loop is a step function on a [World] that also
    holds what the browser keeps between two callbacks: the interval of the
    poll effect, the suspended [async] callbacks with the variables they
    closed over, and the pending timeout. *)

From stdpp Require Import base strings list gmap.
From Stdlib Require Import ZArith Ascii String Lia.

Local Open Scope string_scope.
Set Warnings "-register-all".

(** ** JavaScript values as far as the components look at them *)

Module Js.

(** What [response.json()] can produce, plus [undefined]. Numbers are kept
    by their integer value: the components only test them for truthiness. *)
Inductive Val : Type :=
| Undefined
| Null
| Bool (b : bool)
| Num (n : Z)
| Str (s : string)
| Arr (elems : list Val)
| Obj (props : list (string * Val)).

(** First binding of a key in an object's property list. *)
Fixpoint assoc (k : string) (props : list (string * Val)) : option Val :=
  match props with
  | [] => None
  | (k', v) :: rest => if String.eqb k k' then Some v else assoc k rest
  end.

(** [v.k]: [None] stands for the TypeError thrown on [null] and [undefined].
    The keys read by the components ([game_status], [game_completed],
    [armed], [game_started]) name no property of a primitive or an array. *)
Definition get (v : Val) (k : string) : option Val :=
  match v with
  | Undefined | Null => None
  | Obj props => Some (default Undefined (assoc k props))
  | Bool _ | Num _ | Str _ | Arr _ => Some Undefined
  end.

(** [v?.k] *)
Definition opt_get (v : Val) (k : string) : Val :=
  default Undefined (get v k).

(** ToBoolean *)
Definition truthy (v : Val) : bool :=
  match v with
  | Undefined | Null => false
  | Bool b => b
  | Num n => negb (Z.eqb n 0)
  | Str s => negb (String.eqb s "")
  | Arr _ | Obj _ => true
  end.

Definition lower_ascii (c : ascii) : ascii :=
  let n := nat_of_ascii c in
  if Nat.leb 65 n && Nat.leb n 90 then ascii_of_nat (n + 32) else c.

(** [String.prototype.toLowerCase] on ASCII text. *)
Fixpoint toLowerCase (s : string) : string :=
  match s with
  | EmptyString => EmptyString
  | String c rest => String (lower_ascii c) (toLowerCase rest)
  end.

(** How an awaited [fetch] settles: the promise rejects, or it resolves to
    a response with its [ok] flag and what [response.json()] gives
    ([None] when parsing the body rejects). *)
Inductive Fetched : Type :=
| Rejected
| Response (ok : bool) (json : option Val).

Inductive Method : Type := GET | POST.

Record Request : Type := { method : Method; url : string }.

(** [String.prototype.includes] for a needle of ASCII text: on UTF-8 bytes
    a match of such a needle is a match of its characters. *)
Fixpoint includes (needle hay : string) : bool :=
  String.prefix needle hay ||
  match hay with
  | EmptyString => false
  | String _ rest => includes needle rest
  end.

(** [v?.includes(text)] for a string literal [text]: [undefined] on
    [null] and [undefined], the substring test on a string, the element
    test on an array; [None] stands for the TypeError of calling what is
    not a function (a number, a boolean or a parsed object has no
    [includes] method). *)
Definition opt_includes (v : Val) (text : string) : option Val :=
  match v with
  | Undefined | Null => Some Undefined
  | Str s => Some (Bool (includes text s))
  | Arr elems =>
      Some (Bool (existsb (fun x => match x with
                                    | Str s => String.eqb s text
                                    | _ => false
                                    end) elems))
  | Bool _ | Num _ | Obj _ => None
  end.

End Js.

(** ** The polling variant *)

Module Polling.
Import Js.

(** The four [useState] cells of [Home]. *)
Record State : Type := {
  error : string;
  gameState : Val;
  selectedDifficulty : string;
  currentPage : string;
}.

Definition initial : State :=
  {| error := ""; gameState := Null;
     selectedDifficulty := "Easy"; currentPage := "welcome" |}.

(** A call of one of the four setters. *)
Inductive SetCall : Type :=
| setError (msg : string)
| setGameState (data : Val)
| setSelectedDifficulty (level : string)
| setCurrentPage (page : string).

Definition apply_call (st : State) (c : SetCall) : State :=
  match c with
  | setError msg =>
      {| error := msg; gameState := gameState st;
         selectedDifficulty := selectedDifficulty st;
         currentPage := currentPage st |}
  | setGameState data =>
      {| error := error st; gameState := data;
         selectedDifficulty := selectedDifficulty st;
         currentPage := currentPage st |}
  | setSelectedDifficulty level =>
      {| error := error st; gameState := gameState st;
         selectedDifficulty := level;
         currentPage := currentPage st |}
  | setCurrentPage page =>
      {| error := error st; gameState := gameState st;
         selectedDifficulty := selectedDifficulty st;
         currentPage := page |}
  end.

Definition apply_calls (st : State) (cs : list SetCall) : State :=
  foldl apply_call st cs.

Definition base : string := "http://127.0.0.1:5002".

(** *** The callbacks, as the setter calls they make

    Each takes the variables it closed over and the way its [fetch]
    settled; [try { ... } catch {}] turns every throw into "no further
    call". *)

(** Body of the [setInterval] callback after [await fetch(.../state)];
    [currentPage] is the constant of the render whose effect created the
    callback. *)
Definition poll_callback (currentPage : string) (r : Fetched) : list SetCall :=
  match r with
  | Rejected => []
  | Response false _ => []
  | Response true None => []
  | Response true (Some data) =>
      setGameState data ::
      match get data "game_status" with
      | None => []
      | Some status =>
          if truthy (opt_get status "game_completed")
             && String.eqb currentPage "gameplay"
          then [setCurrentPage "results"]
          else []
      end
  end.

Definition difficulty_request (level : string) : Request :=
  {| method := POST; url := base ++ "/difficulty/" ++ toLowerCase level |}.

(** [setDifficulty(level)] after its [await]. *)
Definition setDifficulty_callback (level : string) (r : Fetched) : list SetCall :=
  match r with
  | Rejected => []
  | Response _ _ => [setSelectedDifficulty level]
  end.

Definition reset_request : Request :=
  {| method := POST; url := base ++ "/reset" |}.

(** [resetGame()] after its [await]. *)
Definition resetGame_callback (r : Fetched) : list SetCall :=
  match r with
  | Rejected => []
  | Response _ _ => [setCurrentPage "welcome"]
  end.

Definition start_request : Request :=
  {| method := POST; url := base ++ "/start" |}.

Definition state_request : Request :=
  {| method := GET; url := base ++ "/state" |}.

(** [onError] of the video feed image. *)
Definition img_onError : list SetCall := [setError "Cannot connect to camera"].

(** *** Rendering *)

Inductive View : Type := WelcomePage | DifficultyPage | GameplayPage | ResultsPage.

(** The [pages] object literal. *)
Definition pages : gmap string View :=
  {[ "welcome" := WelcomePage; "difficulty" := DifficultyPage;
     "gameplay" := GameplayPage; "results" := ResultsPage ]}.

(** [pages[currentPage] || <WelcomePage />]; the flag tells whether the
    right operand of [||] was taken. *)
Definition page_view (st : State) : View * bool :=
  match pages !! currentPage st with
  | Some v => (v, false)
  | None => (WelcomePage, true)
  end.

(** The [level] fields of the array mapped over in [DifficultyPage]. *)
Definition levels : list string := ["Easy"; "Medium"; "Hard"].

(** The elements with an [onClick]. *)
Inductive Button : Type :=
| StartChallenge
| Level (level : string)
| Back
| StartGame
| StartRound
| Settings
| MainMenu
| PlayAgain.

Global Instance Button_eq_dec : EqDecision Button.
Proof. solve_decision. Defined.

Definition buttons_of (v : View) (st : State) : list Button :=
  match v with
  | WelcomePage => [StartChallenge]
  | DifficultyPage => map Level levels ++ [Back; StartGame]
  | GameplayPage =>
      (if negb (truthy (opt_get (gameState st) "armed"))
          && negb (truthy (opt_get (gameState st) "game_started"))
       then [StartRound] else [])
      ++ [Settings]
  | ResultsPage => [MainMenu; PlayAgain]
  end.

(** What [Home] returns, as far as the router and the state cells decide
    it: the page, its clickable elements, whether the video feed image is
    part of it, and the error boxes ([{error && <div>...{error}</div>}]).
    The children that the page bodies build from the snapshot (scores,
    countdown, round result, history) are not evaluated here; building
    them can throw on a snapshot of an unexpected shape. *)
Record Rendered : Type := {
  view : View;
  fallback : bool;
  buttons : list Button;
  video_feed : bool;
  error_boxes : list string;
}.

Definition render (st : State) : Rendered :=
  let (v, fb) := page_view st in
  {| view := v;
     fallback := fb;
     buttons := buttons_of v st;
     video_feed := match v with GameplayPage => true | _ => false end;
     error_boxes := if String.eqb (error st) "" then [] else [error st] |}.

(** *** The component in the browser

    Besides the state cells, the browser holds the interval created by the
    poll effect, the [async] callbacks suspended at an [await] (each with
    the variables it closed over) and the timeouts of "Play Again". *)

(** A live interval of the browser: its delay in milliseconds and the
    [currentPage] its callback closed over. *)
Record Timer : Type := { delay : Z; timer_page : string }.

(** A poll callback suspended at [await fetch(.../state)]: the interval
    that started it and the [currentPage] it closed over. *)
Record Poll : Type := { poll_timer : nat; poll_page : string }.

Record World : Type := {
  ui : State;
  mounted : bool;
  timers : gmap nat Timer;     (* the live intervals, by id *)
  handle : option nat;         (* [interval] in the pending cleanup *)
  next_id : nat;               (* the id [setInterval] returns next *)
  polls : list Poll;
  difficulties : list string;  (* [level] of the suspended [setDifficulty] calls *)
  resets : nat;                (* suspended [resetGame] calls *)
  timeouts : nat;              (* pending timeouts of Play Again *)
  requests : list Request;     (* the [fetch] calls made, oldest first *)
}.

Definition with_ui (st : State) (w : World) : World :=
  {| ui := st; mounted := mounted w; timers := timers w;
     handle := handle w; next_id := next_id w; polls := polls w;
     difficulties := difficulties w; resets := resets w;
     timeouts := timeouts w; requests := requests w |}.

Definition with_timers (ts : gmap nat Timer) (h : option nat) (n : nat)
    (w : World) : World :=
  {| ui := ui w; mounted := mounted w; timers := ts;
     handle := h; next_id := n; polls := polls w;
     difficulties := difficulties w; resets := resets w;
     timeouts := timeouts w; requests := requests w |}.

Definition with_polls (ps : list Poll) (w : World) : World :=
  {| ui := ui w; mounted := mounted w; timers := timers w;
     handle := handle w; next_id := next_id w; polls := ps;
     difficulties := difficulties w; resets := resets w;
     timeouts := timeouts w; requests := requests w |}.

Definition with_difficulties (ds : list string) (w : World) : World :=
  {| ui := ui w; mounted := mounted w; timers := timers w;
     handle := handle w; next_id := next_id w; polls := polls w;
     difficulties := ds; resets := resets w;
     timeouts := timeouts w; requests := requests w |}.

Definition with_resets (n : nat) (w : World) : World :=
  {| ui := ui w; mounted := mounted w; timers := timers w;
     handle := handle w; next_id := next_id w; polls := polls w;
     difficulties := difficulties w; resets := n;
     timeouts := timeouts w; requests := requests w |}.

Definition with_timeouts (n : nat) (w : World) : World :=
  {| ui := ui w; mounted := mounted w; timers := timers w;
     handle := handle w; next_id := next_id w; polls := polls w;
     difficulties := difficulties w; resets := resets w;
     timeouts := n; requests := requests w |}.

(** [fetch(...)] is called. Only the calls of [fetch] are kept: what the
    browser loads by itself for an [<img src>] is no call of the
    component. *)
Definition send (r : Request) (w : World) : World :=
  {| ui := ui w; mounted := mounted w; timers := timers w;
     handle := handle w; next_id := next_id w; polls := polls w;
     difficulties := difficulties w; resets := resets w;
     timeouts := timeouts w; requests := requests w ++ [r] |}.

(** The poll effect: [const interval = setInterval(callback, 1000)], the
    callback closing over the [currentPage] of this render. *)
Definition run_effect (w : World) : World :=
  with_timers
    (<[next_id w := {| delay := 1000; timer_page := currentPage (ui w) |}]>
       (timers w))
    (Some (next_id w)) (S (next_id w)) w.

(** Its cleanup: [clearInterval(interval)]. *)
Definition cleanup (w : World) : World :=
  match handle w with
  | Some id => with_timers (delete id (timers w)) None (next_id w) w
  | None => w
  end.

(** A render with the new state; the effect depends on [[currentPage]], so
    it is torn down and run again exactly when that value changed. *)
Definition commit (st : State) (w : World) : World :=
  if String.eqb (currentPage st) (currentPage (ui w))
  then with_ui st w
  else run_effect (cleanup (with_ui st w)).

(** Setter calls made by a callback; those of an unmounted component are
    dropped. *)
Definition dispatch (cs : list SetCall) (w : World) : World :=
  if mounted w then commit (apply_calls (ui w) cs) w else w.

Definition mount : World :=
  run_effect
    {| ui := initial; mounted := true; timers := ∅; handle := None;
       next_id := 0; polls := []; difficulties := []; resets := 0;
       timeouts := 0; requests := [] |}.

Definition unmount (w : World) : World :=
  let w' := cleanup w in
  {| ui := ui w'; mounted := false; timers := timers w';
     handle := handle w'; next_id := next_id w'; polls := polls w';
     difficulties := difficulties w'; resets := resets w';
     timeouts := timeouts w'; requests := requests w' |}.

(** [resetGame()] up to its [await]. *)
Definition resetGame (w : World) : World :=
  with_resets (S (resets w)) (send reset_request w).

(** The [onClick] handlers, up to their first [await]. *)
Definition click (b : Button) (w : World) : World :=
  match b with
  | StartChallenge => dispatch [setCurrentPage "difficulty"] w
  | Level level =>
      with_difficulties (difficulties w ++ [level])
        (send (difficulty_request level) w)
  | Back => dispatch [setCurrentPage "welcome"] w
  | StartGame => dispatch [setCurrentPage "gameplay"] w
  | StartRound => send start_request w
  | Settings => dispatch [setCurrentPage "difficulty"] w
  | MainMenu => resetGame w
  | PlayAgain =>
      let w' := resetGame w in with_timeouts (S (timeouts w')) w'
  end.

(** What the event loop can run next. *)
Inductive Event : Type :=
| Click (b : Button)                     (* the user clicks a rendered element *)
| ImgError                               (* the video feed image fails to load *)
| IntervalFires (id : nat)               (* the interval [id] elapses *)
| StateSettles (i : nat) (r : Fetched)   (* the i-th suspended poll resumes *)
| DifficultySettles (i : nat) (r : Fetched)
| ResetSettles (r : Fetched)
| TimeoutFires                           (* the 100 ms timeout of Play Again *)
| Unmount.

Definition step (w : World) (e : Event) : option World :=
  match e with
  | Click b =>
      if mounted w && bool_decide (b ∈ buttons (render (ui w)))
      then Some (click b w) else None
  | ImgError =>
      if mounted w && video_feed (render (ui w))
      then Some (dispatch img_onError w) else None
  | IntervalFires id =>
      match timers w !! id with
      | Some t =>
          Some (with_polls
                  (polls w ++ [{| poll_timer := id; poll_page := timer_page t |}])
                  (send state_request w))
      | None => None
      end
  | StateSettles i r =>
      match polls w !! i with
      | Some p =>
          Some (dispatch (poll_callback (poll_page p) r)
                  (with_polls (delete i (polls w)) w))
      | None => None
      end
  | DifficultySettles i r =>
      match difficulties w !! i with
      | Some level =>
          Some (dispatch (setDifficulty_callback level r)
                  (with_difficulties (delete i (difficulties w)) w))
      | None => None
      end
  | ResetSettles r =>
      match resets w with
      | S n => Some (dispatch (resetGame_callback r) (with_resets n w))
      | O => None
      end
  | TimeoutFires =>
      match timeouts w with
      | S n => Some (dispatch [setCurrentPage "difficulty"] (with_timeouts n w))
      | O => None
      end
  | Unmount =>
      if mounted w then Some (unmount w) else None
  end.

(** A run of the event loop. *)
Fixpoint run (w : World) (es : list Event) : option World :=
  match es with
  | [] => Some w
  | e :: rest =>
      match step w e with
      | Some w' => run w' rest
      | None => None
      end
  end.

Definition reachable (w : World) : Prop :=
  exists es, run mount es = Some w.

(** Events that stem from the user: a click, or the continuation of a
    handler the user started. *)
Definition user_initiated (e : Event) : bool :=
  match e with
  | Click _ | DifficultySettles _ _ | ResetSettles _ | TimeoutFires => true
  | ImgError | IntervalFires _ | StateSettles _ _ | Unmount => false
  end.

(** *** Helpers of the gameplay and results views *)

(** The own properties of the [emojis] object literal. *)
Definition emojis : gmap string string :=
  {[ "Rock" := "✊"; "Paper" := "✋"; "Scissors" := "✌️" ]}.

(** The property names every object literal inherits from
    [Object.prototype]; each holds a function or an object, never a
    string. *)
Definition object_prototype : list string :=
  ["constructor"; "hasOwnProperty"; "isPrototypeOf"; "propertyIsEnumerable";
   "toLocaleString"; "toString"; "valueOf"; "__proto__";
   "__defineGetter__"; "__defineSetter__"; "__lookupGetter__";
   "__lookupSetter__"].

(** What [getGestureEmoji] hands to the view: a text, or the truthy value
    inherited under that name. *)
Inductive Child : Type :=
| Text (s : string)
| Inherited (name : string).

(** [getGestureEmoji(gesture)], on the property key [gesture] converts to
    (a string gesture is its own key): [emojis[gesture] || '❓']. *)
Definition getGestureEmoji (gesture : string) : Child :=
  match emojis !! gesture with
  | Some e => Text e
  | None =>
      if bool_decide (gesture ∈ object_prototype)
      then Inherited gesture
      else Text "❓"
  end.

(** [getWinnerColor(winner)]; [None] stands for the TypeError thrown by
    [winner?.includes]. *)
Definition getWinnerColor (winner : Val) : option string :=
  match opt_includes winner "You Win" with
  | None => None
  | Some youWin =>
      if truthy youWin then Some "#00b894"
      else match opt_includes winner "Computer" with
           | None => None
           | Some computer =>
               if truthy computer then Some "#e17055" else Some "#fdcb6e"
           end
  end.

(** The array mapped over in [DifficultyPage]. *)
Record LevelCard : Type := {
  card_level : string;
  card_emoji : string;
  card_desc : string;
  card_color : string;
}.

Definition level_cards : list LevelCard :=
  [ {| card_level := "Easy"; card_emoji := "🟢";
       card_desc := "Random AI - Perfect for beginners";
       card_color := "#00b894" |};
    {| card_level := "Medium"; card_emoji := "🟡";
       card_desc := "Adaptive AI - Learns your patterns";
       card_color := "#fdcb6e" |};
    {| card_level := "Hard"; card_emoji := "🔴";
       card_desc := "Predictive AI - Advanced strategy";
       card_color := "#e17055" |} ].

(** The three style fields of a card that depend on the state. *)
Record CardStyle : Type := {
  background : string;
  border : string;
  transform : string;
}.

Definition card_selected (st : State) (c : LevelCard) : bool :=
  String.eqb (selectedDifficulty st) (card_level c).

Definition card_style (st : State) (c : LevelCard) : CardStyle :=
  {| background :=
       if card_selected st c then card_color c else "rgba(255,255,255,0.1)";
     border :=
       "3px solid " ++ (if card_selected st c then "white" else "transparent");
     transform :=
       if card_selected st c then "scale(1.05)" else "scale(1)" |}.

(** The test of the poll callback on a settled fetch: an ok response whose
    parsed body has a [game_status] with a truthy [game_completed]. *)
Definition reports_completed (r : Fetched) : bool :=
  match r with
  | Response true (Some data) =>
      match get data "game_status" with
      | Some status => truthy (opt_get status "game_completed")
      | None => false
      end
  | _ => false
  end.

End Polling.


(** ** The stream-only variant ([web/src/Home.jsx]) *)

Module Stream.
Import Js.

(** The single [useState] cell. *)
Record State : Type := { error : string }.

Definition initial : State := {| error := "" |}.

Definition start_request : Request :=
  {| method := POST; url := "http://127.0.0.1:5002/start" |}.

(** [onError] of the stream image: [setError(...)]. *)
Definition img_onError (st : State) : State :=
  {| error := "Can't reach the Python stream at http://127.0.0.1:5002/video_feed" |}.

(** What [Home] returns: the Start Game button, the stream image and the
    single-frame link are always there; the error text only when [error]
    is truthy. *)
Record Rendered : Type := {
  start_button : bool;
  video_feed : bool;
  frame_link : bool;
  error_boxes : list string;
}.

Definition render (st : State) : Rendered :=
  {| start_button := true; video_feed := true; frame_link := true;
     error_boxes := if String.eqb (error st) "" then [] else [error st] |}.

(** The state cell and the [fetch] calls made, oldest first (the load of
    the stream image by the browser is no [fetch] call). *)
Record World : Type := { ui : State; requests : list Request }.

Definition mount : World := {| ui := initial; requests := [] |}.

Inductive Event : Type :=
| ClickStart    (* the Start Game button; its handler only awaits the fetch *)
| ImgError.

Definition step (w : World) (e : Event) : option World :=
  match e with
  | ClickStart =>
      if start_button (render (ui w))
      then Some {| ui := ui w; requests := requests w ++ [start_request] |}
      else None
  | ImgError =>
      if video_feed (render (ui w))
      then Some {| ui := img_onError (ui w); requests := requests w |}
      else None
  end.

(** A run of the event loop. *)
Fixpoint run (w : World) (es : list Event) : option World :=
  match es with
  | [] => Some w
  | e :: rest =>
      match step w e with
      | Some w' => run w' rest
      | None => None
      end
  end.

Definition is_ImgError (e : Event) : bool :=
  match e with ImgError => true | ClickStart => false end.

Definition is_ClickStart (e : Event) : bool :=
  match e with ClickStart => true | ImgError => false end.

End Stream.

(** ** Gesture classifier and round outcome of the client-only variant *)

Module Gesture.

(** Modelled from the spec: the gesture enumeration of the data model. *)
Inductive Gesture : Type := Rock | Paper | Scissors | Unknown.

(** Modelled from the spec: how a round ends. *)
Inductive Outcome : Type := PlayerWin | ComputerWin | Draw.

(** Modelled from the spec: which of the five fingers the tip-vs-joint
    comparisons found extended. *)
Record Fingers : Type := {
  thumb : bool; index : bool; middle : bool; ring : bool; pinky : bool;
}.

(** Modelled from the spec: the finger-extension count. *)
Definition count (f : Fingers) : nat :=
  List.length (filter (fun b => b = true)
                 [thumb f; index f; middle f; ring f; pinky f]).

(** Modelled from the spec: the classification rule of the client-only
    variant's classifier, whose code is not among the sources. Zero
    extended fingers give Rock, five Paper, exactly two (index and middle)
    Scissors, anything else Unknown. *)
Definition classify (f : Fingers) : Gesture :=
  match count f with
  | 0 => Rock
  | 5 => Paper
  | 2 => if index f && middle f then Scissors else Unknown
  | _ => Unknown
  end.

(** Modelled from the spec: the states of the round state machine. *)
Inductive Phase : Type := Idle | CountingDown | Locked | Resolved.

(** Modelled from the spec: the round state of the client-only variant:
    the phase, the countdown remaining, the last classified gesture, the
    computer's gesture and the winner. *)
Record Round : Type := {
  phase : Phase;
  countdown : nat;
  gesture : Gesture;
  computer : option Gesture;
  winner : option Outcome;
}.

Section Classifier.

(** The landmark set of one hand, and the per-finger comparisons on it; the
    spec fixes neither the coordinates nor the thresholds. *)
Variable Landmarks : Type.
Variable extended : Landmarks -> Fingers.

(** Modelled from the spec: the classifier on a landmark set. *)
Definition classifier (hand : Landmarks) : Gesture :=
  classify (extended hand).

(** Modelled from the spec: the per-frame detection callback. No hand in
    the frame gives no result; Unknown makes no new classification. *)
Definition on_frame (r : Round) (hand : option Landmarks) : Round :=
  match hand with
  | None => r
  | Some lm =>
      match classifier lm with
      | Unknown => r
      | g => {| phase := phase r; countdown := countdown r; gesture := g;
                computer := computer r; winner := winner r |}
      end
  end.

End Classifier.

(** Modelled from the spec: the beats relation: Rock beats Scissors,
    Scissors beats Paper, Paper beats Rock. *)
Definition beats (a b : Gesture) : bool :=
  match a, b with
  | Rock, Scissors | Scissors, Paper | Paper, Rock => true
  | _, _ => false
  end.

(** Modelled from the spec: the round outcome of the client-only variant,
    whose code is not among the sources; it is given for the three
    playable gestures only. *)
Definition outcome (player computer : Gesture) : option Outcome :=
  match player, computer with
  | Unknown, _ | _, Unknown => None
  | _, _ =>
      Some (if beats player computer then PlayerWin
            else if beats computer player then ComputerWin
            else Draw)
  end.

(** The same round seen from the other side. *)
Definition opposite (o : Outcome) : Outcome :=
  match o with
  | PlayerWin => ComputerWin
  | ComputerWin => PlayerWin
  | Draw => Draw
  end.

(** Rock, Paper and Scissors. *)
Definition playable (g : Gesture) : Prop := g <> Unknown.

End Gesture.

(** ** Properties of the polling variant *)

Import Js Polling.

(** The names of the four pages. *)
Definition page_names : list string :=
  ["welcome"; "difficulty"; "gameplay"; "results"].

(** A backend snapshot that reports the game completed. *)
Definition completed : Val :=
  Obj [("game_status", Obj [("game_completed", Bool true)])].

(** Two worlds that differ at most in what is suspended or was sent. *)
Definition same_core (w0 w : World) : Prop :=
  ui w0 = ui w /\ mounted w0 = mounted w /\ timers w0 = timers w /\
  handle w0 = handle w /\ next_id w0 = next_id w.

(** Every [setCurrentPage] among the calls passes one of the four names. *)
Definition literal_pages (cs : list SetCall) : Prop :=
  forall p, In (setCurrentPage p) cs -> p ∈ page_names.

(** While mounted, the browser holds exactly the interval of the latest poll
    effect; after unmount, none. *)
Definition timer_inv (w : World) : Prop :=
  if mounted w
  then exists id,
         handle w = Some id /\ id < next_id w /\
         timers w = {[ id := {| delay := 1000; timer_page := currentPage (ui w) |} ]}
  else timers w = ∅.

(** The interval [id] was created and cleared. *)
Definition cleared (id : nat) (w : World) : Prop :=
  id < next_id w /\ timers w !! id = None.

(** The text [img_onError] sets. *)
Definition camera_error : string := "Cannot connect to camera".

(** The [fetch] calls the component has code to make. *)
Definition endpoints : list Request :=
  [ {| method := GET; url := "http://127.0.0.1:5002/state" |};
    {| method := POST; url := "http://127.0.0.1:5002/start" |};
    {| method := POST; url := "http://127.0.0.1:5002/reset" |};
    {| method := POST; url := "http://127.0.0.1:5002/difficulty/easy" |};
    {| method := POST; url := "http://127.0.0.1:5002/difficulty/medium" |};
    {| method := POST; url := "http://127.0.0.1:5002/difficulty/hard" |} ].

(** The page changes a step can make: the event, the page before and the
    page after. *)
Inductive navigation : Event -> string -> string -> Prop :=
| nav_start_challenge :
    navigation (Click StartChallenge) "welcome" "difficulty"
| nav_back :
    navigation (Click Back) "difficulty" "welcome"
| nav_start_game :
    navigation (Click StartGame) "difficulty" "gameplay"
| nav_settings :
    navigation (Click Settings) "gameplay" "difficulty"
| nav_results i r from :
    reports_completed r = true ->
    navigation (StateSettles i r) from "results"
| nav_reset r from :
    r <> Rejected ->
    navigation (ResetSettles r) from "welcome"
| nav_timeout from :
    navigation TimeoutFires from "difficulty".

(** The selected difficulty and every level a suspended [setDifficulty]
    holds are levels of the difficulty page. *)
Definition difficulty_inv (w : World) : Prop :=
  selectedDifficulty (ui w) ∈ levels /\
  Forall (fun l => l ∈ levels) (difficulties w).

(** Every suspended poll was started by an interval that existed, and one
    started by the live interval closed over the current page. *)
Definition fresh_polls (w : World) : Prop :=
  Forall (fun p => poll_timer p < next_id w /\
                   (handle w = Some (poll_timer p) ->
                    poll_page p = currentPage (ui w)))
         (polls w).

(** The page whose view renders the button. *)
Definition button_page (b : Button) : string :=
  match b with
  | StartChallenge => "welcome"
  | Level _ | Back | StartGame => "difficulty"
  | StartRound | Settings => "gameplay"
  | MainMenu | PlayAgain => "results"
  end.

(** The events that resume a suspended callback or a pending timeout. *)
Definition continuation (e : Event) : Prop :=
  match e with
  | StateSettles _ _ | DifficultySettles _ _ | ResetSettles _ | TimeoutFires => True
  | Click _ | ImgError | IntervalFires _ | Unmount => False
  end.

Lemma same_core_refl w : same_core w w.
Proof. by repeat split. Qed.

Lemma with_ui_id w : with_ui (ui w) w = w.
Proof. by destruct w. Qed.

Lemma commit_same st w :
  currentPage st = currentPage (ui w) -> commit st w = with_ui st w.
Proof. intros E. unfold commit. by rewrite E, String.eqb_refl. Qed.

Lemma dispatch_nil w : dispatch [] w = w.
Proof.
  unfold dispatch. destruct (mounted w); [|done].
  simpl. rewrite commit_same by done. apply with_ui_id.
Qed.

Lemma commit_ui st w : ui (commit st w) = st.
Proof.
  unfold commit. destruct (String.eqb _ _); [done|].
  unfold run_effect, cleanup. simpl. by destruct (handle w).
Qed.

Lemma commit_mounted st w : mounted (commit st w) = mounted w.
Proof.
  unfold commit. destruct (String.eqb _ _); [done|].
  unfold run_effect, cleanup. simpl. by destruct (handle w).
Qed.

Lemma dispatch_ui cs w :
  mounted w = true -> ui (dispatch cs w) = apply_calls (ui w) cs.
Proof. intros M. unfold dispatch. rewrite M. apply commit_ui. Qed.

Lemma dispatch_unmounted cs w : mounted w = false -> dispatch cs w = w.
Proof. intros M. unfold dispatch. by rewrite M. Qed.

Lemma dispatch_mounted cs w : mounted (dispatch cs w) = mounted w.
Proof.
  unfold dispatch. destruct (mounted w) eqn:M; [|done].
  by rewrite commit_mounted.
Qed.

(** Every step is an unmount, or some setter calls dispatched in a world
    with the same component state and timers. *)
Lemma step_shape w e w' :
  step w e = Some w' ->
  (e = Unmount /\ mounted w = true /\ w' = unmount w) \/
  (exists cs w0, same_core w0 w /\ literal_pages cs /\ w' = dispatch cs w0).
Proof.
  assert (L0 : literal_pages []) by (intros p []).
  assert (L1 : forall p, p ∈ page_names -> literal_pages [setCurrentPage p]).
  { intros p Hp q [E|[]]. by inversion E; subst. }
  assert (Hw : "welcome" ∈ page_names) by (apply list_elem_of_In; simpl; tauto).
  assert (Hd : "difficulty" ∈ page_names) by (apply list_elem_of_In; simpl; tauto).
  assert (Hg : "gameplay" ∈ page_names) by (apply list_elem_of_In; simpl; tauto).
  assert (Hr : "results" ∈ page_names) by (apply list_elem_of_In; simpl; tauto).
  destruct e as [b| |id|i r|i r|r| |]; simpl; intros H.
  - destruct (mounted w && _); [|done]. inversion H; subst; clear H. right.
    destruct b; simpl;
      first [ by eexists _, w; split; [apply same_core_refl|split; [|done]]; auto
            | eexists [], _; split; [|split; [done|by rewrite dispatch_nil]];
              by repeat split ].
  - destruct (mounted w && _); [|done]. inversion H; subst. right.
    exists img_onError, w. split; [apply same_core_refl|]. split; [|done].
    intros p [E|[]]. inversion E.
  - destruct (timers w !! id); [|done]. inversion H; subst. right.
    eexists [], _. split; [|split; [done|by rewrite dispatch_nil]].
    by repeat split.
  - destruct (polls w !! i) as [p|]; [|done]. inversion H; subst. right.
    eexists _, _. split; [|split; [|done]]; [by repeat split|].
    intros q. destruct r as [|[] [data|]]; simpl; try tauto.
    intros [E|Hq]; [inversion E|].
    destruct (get data "game_status"); [|done].
    destruct (_ && _); [|done]. by apply (L1 _ Hr).
  - destruct (difficulties w !! i) as [l|]; [|done]. inversion H; subst. right.
    eexists _, _. split; [|split; [|done]]; [by repeat split|].
    intros q. destruct r; simpl; [tauto|]. intros [E|[]]. inversion E.
  - destruct (resets w); [done|]. inversion H; subst. right.
    eexists _, _. split; [|split; [|done]]; [by repeat split|].
    destruct r; [done|]. by apply L1.
  - destruct (timeouts w); [done|]. inversion H; subst. right.
    eexists _, _. split; [|split; [|done]]; [by repeat split|]. by apply L1.
  - destruct (mounted w) eqn:M; [|done]. inversion H; subst. by left.
Qed.

Lemma cleanup_ui w : ui (cleanup w) = ui w.
Proof. unfold cleanup. by destruct (handle w). Qed.

Lemma unmount_ui w : ui (unmount w) = ui w.
Proof. unfold unmount. simpl. apply cleanup_ui. Qed.

(** *** The page stays one of the four names *)

Lemma apply_calls_page cs st :
  literal_pages cs ->
  currentPage st ∈ page_names ->
  currentPage (apply_calls st cs) ∈ page_names.
Proof.
  revert st. induction cs as [|c cs IH]; intros st L Hst; [done|].
  unfold apply_calls. simpl. apply IH.
  - intros p Hp. apply L. by right.
  - destruct c; simpl; try done. apply L. by left.
Qed.

Lemma step_page w e w' :
  step w e = Some w' ->
  currentPage (ui w) ∈ page_names ->
  currentPage (ui w') ∈ page_names.
Proof.
  intros H Hp.
  destruct (step_shape _ _ _ H) as [(_ & _ & ->)|(cs & w0 & C & L & ->)].
  - by rewrite unmount_ui.
  - destruct C as (Eu & _). destruct (mounted w0) eqn:M.
    + rewrite dispatch_ui by done. apply apply_calls_page; [done|by rewrite Eu].
    + rewrite dispatch_unmounted by done. by rewrite Eu.
Qed.

Lemma run_page es : forall w w',
  run w es = Some w' ->
  currentPage (ui w) ∈ page_names ->
  currentPage (ui w') ∈ page_names.
Proof.
  induction es as [|e es IH]; simpl; intros w w' H Hp.
  - by inversion H; subst.
  - destruct (step w e) as [w1|] eqn:S1; [|done].
    eapply IH; [done|]. by eapply step_page.
Qed.

Lemma page_names_lookup p : p ∈ page_names -> is_Some (pages !! p).
Proof.
  intros Hp. apply list_elem_of_In in Hp. simpl in Hp.
  destruct Hp as [<-|[<-|[<-|[<-|[]]]]]; by eexists.
Qed.

(** *** The timers *)

Lemma same_core_timer_inv w0 w : same_core w0 w -> timer_inv w -> timer_inv w0.
Proof.
  intros (Eu & Em & Et & Eh & En). unfold timer_inv.
  by rewrite Eu, Em, Et, Eh, En.
Qed.

Lemma commit_timer_inv st w :
  mounted w = true -> timer_inv w -> timer_inv (commit st w).
Proof.
  unfold timer_inv. intros M. rewrite commit_mounted, M.
  intros (id & Hh & Hlt & Ht). unfold commit.
  destruct (String.eqb _ _) eqn:E.
  - apply String.eqb_eq in E. simpl. exists id. by rewrite E.
  - unfold cleanup. simpl. rewrite Hh. simpl.
    exists (next_id w). split; [done|]. split; [lia|].
    by rewrite Ht, delete_singleton_eq, insert_empty.
Qed.

Lemma dispatch_timer_inv cs w : timer_inv w -> timer_inv (dispatch cs w).
Proof.
  intros I. unfold dispatch. destruct (mounted w) eqn:M; [|done].
  by apply commit_timer_inv.
Qed.

Lemma unmount_timer_inv w : mounted w = true -> timer_inv w -> timer_inv (unmount w).
Proof.
  unfold timer_inv. intros M. rewrite M. intros (id & Hh & _ & Ht).
  unfold unmount, cleanup. simpl. rewrite Hh. simpl.
  by rewrite Ht, delete_singleton_eq.
Qed.

Lemma step_timer_inv w e w' : step w e = Some w' -> timer_inv w -> timer_inv w'.
Proof.
  intros H I.
  destruct (step_shape _ _ _ H) as [(_ & M & ->)|(cs & w0 & C & _ & ->)].
  - by apply unmount_timer_inv.
  - apply dispatch_timer_inv. by eapply same_core_timer_inv.
Qed.

Lemma mount_timer_inv : timer_inv mount.
Proof.
  unfold timer_inv, mount, run_effect. simpl. exists 0.
  split; [done|]. split; [lia|]. by rewrite insert_empty.
Qed.

Lemma run_timer_inv es : forall w w',
  run w es = Some w' -> timer_inv w -> timer_inv w'.
Proof.
  induction es as [|e es IH]; simpl; intros w w' H I.
  - by inversion H; subst.
  - destruct (step w e) as [w1|] eqn:S1; [|done].
    eapply IH; [done|]. by eapply step_timer_inv.
Qed.

(** A cleared interval stays cleared: ids are never handed out twice. *)
Lemma cleanup_cleared id w : cleared id w -> cleared id (cleanup w).
Proof.
  unfold cleared, cleanup. intros [Hlt Hn].
  destruct (handle w) as [h|]; [|done]. simpl. split; [done|].
  apply lookup_delete_None. by right.
Qed.

Lemma run_effect_cleared id w : cleared id w -> cleared id (run_effect w).
Proof.
  unfold cleared, run_effect. simpl. intros [Hlt Hn]. split; [lia|].
  rewrite lookup_insert_ne by lia. done.
Qed.

Lemma commit_cleared id st w : cleared id w -> cleared id (commit st w).
Proof.
  intros Hc. unfold commit. destruct (String.eqb _ _); [done|].
  apply run_effect_cleared, cleanup_cleared. done.
Qed.

Lemma step_cleared id w e w' : step w e = Some w' -> cleared id w -> cleared id w'.
Proof.
  intros H Hc.
  destruct (step_shape _ _ _ H) as [(_ & M & ->)|(cs & w0 & C & _ & ->)].
  - apply (cleanup_cleared id w Hc).
  - destruct C as (_ & _ & Et & _ & En).
    assert (Hc0 : cleared id w0) by (unfold cleared; by rewrite Et, En).
    unfold dispatch. destruct (mounted w0); [|done]. by apply commit_cleared.
Qed.

Lemma run_cleared id es : forall w w',
  run w es = Some w' -> cleared id w -> cleared id w'.
Proof.
  induction es as [|e es IH]; simpl; intros w w' H Hc.
  - by inversion H; subst.
  - destruct (step w e) as [w1|] eqn:S1; [|done].
    eapply IH; [done|]. by eapply step_cleared.
Qed.

(** Tearing the effect down clears the live interval. *)
Lemma teardown_clears w e w' id :
  timer_inv w ->
  is_Some (timers w !! id) ->
  step w e = Some w' ->
  e = Unmount \/ currentPage (ui w') <> currentPage (ui w) ->
  cleared id w'.
Proof.
  intros I [t Ht] H Hcause.
  assert (M : mounted w = true).
  { unfold timer_inv in I. destruct (mounted w); [done|].
    rewrite I in Ht. by rewrite lookup_empty in Ht. }
  unfold timer_inv in I. rewrite M in I. destruct I as (h & Hh & Hlt & Hts).
  assert (id = h) as ->.
  { rewrite Hts in Ht. apply lookup_singleton_Some in Ht. by destruct Ht. }
  assert (U : cleared h (unmount w)).
  { unfold cleared, unmount, cleanup. simpl. rewrite Hh. simpl.
    split; [done|]. apply lookup_delete_eq. }
  destruct Hcause as [->|Hne].
  { simpl in H. rewrite M in H. by inversion H; subst. }
  destruct (step_shape _ _ _ H) as [(_ & _ & ->)|(cs & w0 & C & _ & ->)]; [done|].
  destruct C as (Eu & Em & Et & Eh & En).
  unfold dispatch in *. rewrite Em, M in *. rewrite commit_ui in Hne.
  unfold commit. rewrite Eu.
  destruct (String.eqb _ _) eqn:E.
  { apply String.eqb_eq in E. rewrite Eu in Hne. done. }
  unfold cleared, run_effect, cleanup. simpl. rewrite Eh, Hh. simpl.
  rewrite En, Et. split; [lia|].
  rewrite lookup_insert_ne by lia. apply lookup_delete_eq.
Qed.

(** *** The poll callback *)

(** The callback navigates to the results page exactly when the response
    is ok, its body parses, the snapshot reports the game completed and the
    [currentPage] the callback closed over is the gameplay page. *)
Lemma poll_callback_navigates page r p :
  In (setCurrentPage p) (poll_callback page r) <->
  p = "results" /\ page = "gameplay" /\
  exists data status,
    r = Response true (Some data) /\
    get data "game_status" = Some status /\
    truthy (opt_get status "game_completed") = true.
Proof.
  split.
  - destruct r as [|[] [data|]]; simpl; try tauto.
    intros [E|H]; [inversion E|].
    destruct (get data "game_status") as [status|] eqn:G; [|done].
    destruct (truthy _) eqn:T; [|done].
    destruct (String.eqb page "gameplay") eqn:E; [|done].
    apply String.eqb_eq in E. destruct H as [H|[]]. inversion H; subst.
    repeat split. by exists data, status.
  - intros (-> & -> & data & status & -> & G & T). simpl.
    rewrite G, T. simpl. tauto.
Qed.

Lemma poll_callback_apply st page r :
  let st' := apply_calls st (poll_callback page r) in
  error st' = error st /\
  selectedDifficulty st' = selectedDifficulty st /\
  (forall data, r = Response true (Some data) -> gameState st' = data) /\
  ((forall data, r <> Response true (Some data)) -> st' = st) /\
  (page <> "gameplay" -> currentPage st' = currentPage st).
Proof.
  destruct r as [|[] [data|]]; simpl; try (repeat split; done).
  destruct (get data "game_status") as [status|]; simpl.
  - destruct (truthy _); simpl.
    + destruct (String.eqb page "gameplay") eqn:E; simpl.
      * apply String.eqb_eq in E. repeat split; try done.
        -- intros d [= ->]. done.
        -- intros H. by destruct (H data).
      * repeat split; try done.
        -- intros d [= ->]. done.
        -- intros H. by destruct (H data).
    + repeat split; try done.
      * intros d [= ->]. done.
      * intros H. by destruct (H data).
  - repeat split; try done.
    + intros d [= ->]. done.
    + intros H. by destruct (H data).
Qed.

(** Only a poll response or something the user started changes the page,
    and a poll response changes it to the results page only. *)
Lemma page_change_cause w e w' :
  step w e = Some w' ->
  currentPage (ui w') <> currentPage (ui w) ->
  user_initiated e = true \/
  exists i r, e = StateSettles i r /\ currentPage (ui w') = "results".
Proof.
  destruct e as [b| |id|i r|i r|r| |]; simpl; intros H Hne; try (by left).
  - destruct (mounted w && _); [|done]. inversion H; subst.
    destruct (mounted w) eqn:M.
    + rewrite dispatch_ui in Hne by done. done.
    + rewrite dispatch_unmounted in Hne by done. done.
  - destruct (timers w !! id); [|done]. inversion H; subst. done.
  - right. exists i, r. split; [done|].
    destruct (polls w !! i) as [p|]; [|done]. inversion H; subst. clear H.
    destruct (mounted w) eqn:M.
    + rewrite dispatch_ui in * by done. simpl in *.
      destruct r as [|[] [data|]]; simpl in *; try done.
      destruct (get data "game_status"); simpl in *; [|done].
      destruct (_ && _); simpl in *; done.
    + rewrite dispatch_unmounted in Hne by done. done.
  - destruct (mounted w) eqn:M; [|done]. inversion H; subst.
    by rewrite unmount_ui in Hne.
Qed.

(** C1, as the code behaves at an input where it departs from the claim:
    the user opens the gameplay page, the interval fires and the callback
    awaits its fetch, the user clicks Settings, and the response then
    reports the game completed. The callback tests the [currentPage] it
    closed over ('gameplay'), so the page is set to 'results' although the
    current page at that moment is 'difficulty'. *)
Theorem poll_navigates_from_stale_page :
  exists w w',
    run mount [Click StartChallenge; Click StartGame; IntervalFires 2;
               Click Settings] = Some w /\
    currentPage (ui w) = "difficulty" /\
    polls w = [{| poll_timer := 2; poll_page := "gameplay" |}] /\
    step w (StateSettles 0 (Response true (Some completed))) = Some w' /\
    currentPage (ui w') = "results".
Proof.
  eexists _, _. split; [by vm_compute|].
  split; [done|]. split; [done|]. split; [by vm_compute|]. done.
Qed.

(** C2, refuted as stated: a poll is awaiting its response on the gameplay
    page, the user clicks Settings, and the response (a snapshot that does
    not report completion) arrives on the difficulty page: it is not
    discarded, the stored game state changes. *)
Lemma late_poll_response_not_discarded :
  exists w w',
    run mount [Click StartChallenge; Click StartGame; IntervalFires 2;
               Click Settings] = Some w /\
    polls w = [{| poll_timer := 2; poll_page := "gameplay" |}] /\
    currentPage (ui w) = "difficulty" /\
    gameState (ui w) = Null /\
    step w (StateSettles 0 (Response true (Some (Obj [("armed", Bool true)]))))
      = Some w' /\
    gameState (ui w') = Obj [("armed", Bool true)] /\
    ui w' <> ui w.
Proof.
  eexists _, _. split; [by vm_compute|].
  split; [done|]. split; [done|]. split; [done|].
  split; [by vm_compute|]. split; [done|]. discriminate.
Qed.

(** C2, amended: while the component is mounted, a poll response is acted
    on whatever the page has become. Every successful response (ok, body parsed) replaces the stored game
    state, and an unsuccessful one changes nothing; the error text and the
    selected difficulty are never touched. The page test guards the
    navigation only: when the page the callback closed over is not
    'gameplay', the current page stays as it is. *)
Theorem poll_response_effect w i p r w' :
  mounted w = true ->
  polls w !! i = Some p ->
  step w (StateSettles i r) = Some w' ->
  error (ui w') = error (ui w) /\
  selectedDifficulty (ui w') = selectedDifficulty (ui w) /\
  (forall data, r = Response true (Some data) -> gameState (ui w') = data) /\
  ((forall data, r <> Response true (Some data)) -> ui w' = ui w) /\
  (poll_page p <> "gameplay" -> currentPage (ui w') = currentPage (ui w)).
Proof.
  intros M Hp H. simpl in H. rewrite Hp in H. inversion H; subst. clear H.
  rewrite dispatch_ui by done. simpl. apply poll_callback_apply.
Qed.

Lemma poll_response_effect_witness :
  exists w',
    step (with_polls [{| poll_timer := 0; poll_page := "welcome" |}] mount)
         (StateSettles 0 (Response true (Some completed))) = Some w' /\
    gameState (ui w') = completed /\ currentPage (ui w') = "welcome".
Proof.
  eexists. split; [vm_compute; reflexivity|].
  destruct (poll_response_effect
              (with_polls [{| poll_timer := 0; poll_page := "welcome" |}] mount)
              0 {| poll_timer := 0; poll_page := "welcome" |}
              (Response true (Some completed)) _
              eq_refl eq_refl eq_refl)
    as (_ & _ & G & _ & P).
  split; [by apply G|]. apply P. discriminate.
Defined.

(** C3: a failed poll (the fetch throws, or the response is not ok) leaves
    the stored game state, the current page and the selected difficulty as
    they were, and shows no error: the whole component state, hence what is
    rendered, is unchanged, and so is the poll timer. *)
Theorem failed_poll_leaves_state w i r w' :
  r = Rejected \/ (exists body, r = Response false body) ->
  step w (StateSettles i r) = Some w' ->
  gameState (ui w') = gameState (ui w) /\
  currentPage (ui w') = currentPage (ui w) /\
  selectedDifficulty (ui w') = selectedDifficulty (ui w) /\
  error (ui w') = error (ui w) /\
  error_boxes (render (ui w')) = error_boxes (render (ui w)) /\
  render (ui w') = render (ui w) /\
  timers w' = timers w.
Proof.
  intros Hr H. simpl in H.
  destruct (polls w !! i) as [p|]; [|done]. inversion H; subst. clear H.
  assert (E : poll_callback (poll_page p) r = []).
  { destruct Hr as [->|[body ->]]; done. }
  rewrite E, dispatch_nil. simpl. done.
Qed.

Lemma failed_poll_leaves_state_witness :
  exists w',
    step (with_polls [{| poll_timer := 0; poll_page := "welcome" |}] mount)
         (StateSettles 0 Rejected) = Some w' /\
    render (ui w') = render (ui mount).
Proof.
  eexists. split; [vm_compute; reflexivity|].
  apply (failed_poll_leaves_state
           (with_polls [{| poll_timer := 0; poll_page := "welcome" |}] mount)
           0 Rejected _ (or_introl eq_refl) eq_refl).
Defined.

(** ** Properties of the client-only variant, as the spec describes it *)

Section ClientOnly.
Import Gesture.

(** C4: on the three playable gestures the round outcome is defined;
    Rock against Scissors, Scissors against Paper and Paper against Rock
    are player wins; equal gestures draw; and for two different gestures
    one order is a win for the player and the other a win for the
    computer. *)
Theorem outcome_total_symmetric (a b : Gesture) :
  playable a -> playable b ->
  (exists o, outcome a b = Some o) /\
  outcome Rock Scissors = Some PlayerWin /\
  outcome Scissors Paper = Some PlayerWin /\
  outcome Paper Rock = Some PlayerWin /\
  outcome a a = Some Draw /\
  (a <> b ->
   exists o, outcome a b = Some o /\ outcome b a = Some (opposite o) /\
             o <> Draw /\ opposite o <> o).
Proof.
  unfold playable. intros Ha Hb.
  destruct a, b; try done; simpl;
    (split; [by eexists|]); repeat (split; [done|]);
    intros Hne; try done; eexists; repeat split; done.
Qed.

Lemma outcome_total_symmetric_witness :
  outcome Paper Scissors = Some ComputerWin /\
  outcome Scissors Paper = Some PlayerWin.
Proof.
  destruct (outcome_total_symmetric Paper Scissors) as (_ & _ & H & _);
    [discriminate|discriminate|].
  split; [reflexivity|exact H].
Defined.

(** C5: for every landmark set of a hand, whatever comparisons tell which
    fingers are extended: no finger extended gives Rock, five give Paper,
    exactly two that are the index and the middle finger give Scissors,
    any count other than zero, two and five gives Unknown; and on Unknown
    the frame makes no new classification: the round state is retained. *)
Theorem classifier_by_count (Landmarks : Type) (extended : Landmarks -> Fingers)
    (hand : Landmarks) (r : Round) :
  (count (extended hand) = 0 -> classifier Landmarks extended hand = Rock) /\
  (count (extended hand) = 5 -> classifier Landmarks extended hand = Paper) /\
  (count (extended hand) = 2 ->
   index (extended hand) = true -> middle (extended hand) = true ->
   classifier Landmarks extended hand = Scissors) /\
  (count (extended hand) <> 0 -> count (extended hand) <> 2 ->
   count (extended hand) <> 5 ->
   classifier Landmarks extended hand = Unknown) /\
  (classifier Landmarks extended hand = Unknown ->
   on_frame Landmarks extended r (Some hand) = r).
Proof.
  unfold classifier, on_frame, classifier, classify.
  repeat split.
  - by intros ->.
  - by intros ->.
  - by intros -> -> ->.
  - intros H0 H2 H5.
    destruct (count (extended hand)) as [|[|[|[|[|[|n]]]]]]; done.
  - by intros ->.
Qed.

Lemma classifier_by_count_witness :
  let fingers t i m r p :=
    {| thumb := t; index := i; middle := m; ring := r; pinky := p |} in
  let round :=
    {| phase := CountingDown; countdown := 2; gesture := Paper;
       computer := None; winner := None |} in
  classifier Fingers id (fingers false false false false false) = Rock /\
  classifier Fingers id (fingers true true true true true) = Paper /\
  classifier Fingers id (fingers false true true false false) = Scissors /\
  classifier Fingers id (fingers false true false false false) = Unknown /\
  on_frame Fingers id round (Some (fingers false true false false false)) = round.
Proof.
  intros fingers round.
  split.
  { apply (classifier_by_count Fingers id (fingers false false false false false) round).
    reflexivity. }
  split.
  { apply (classifier_by_count Fingers id (fingers true true true true true) round).
    reflexivity. }
  split.
  { apply (classifier_by_count Fingers id (fingers false true true false false) round);
      reflexivity. }
  split.
  { apply (classifier_by_count Fingers id (fingers false true false false false) round);
      discriminate. }
  apply (classifier_by_count Fingers id (fingers false true false false false) round).
  reflexivity.
Defined.

End ClientOnly.

(** *** Selecting a difficulty *)

Lemma setDifficulty_callback_apply st level r :
  (r <> Rejected ->
   selectedDifficulty (apply_calls st (setDifficulty_callback level r)) = level) /\
  (r = Rejected -> apply_calls st (setDifficulty_callback level r) = st).
Proof. destruct r; simpl; split; done. Qed.

(** C6, refuted as stated: on the difficulty page the user selects Hard and
    the POST is sent, but its fetch rejects: the cached selected difficulty
    is still Easy and no call is left that could set it. *)
Lemma difficulty_not_cached_when_fetch_rejects :
  exists w1 w2,
    run mount [Click StartChallenge; Click (Level "Hard")] = Some w1 /\
    requests w1 = [{| method := POST;
                      url := "http://127.0.0.1:5002/difficulty/hard" |}] /\
    step w1 (DifficultySettles 0 Rejected) = Some w2 /\
    selectedDifficulty (ui w2) = "Easy" /\
    difficulties w2 = [].
Proof.
  eexists _, _. split; [by vm_compute|]. split; [done|].
  split; [by vm_compute|]. done.
Qed.

(** C6, amended: for every level L of Easy, Medium and Hard, selecting L
    on the difficulty page sends POST /difficulty/{level} with the
    lowercase form of L (one of easy, medium, hard) as the path segment and
    leaves the component state as it is; when the fetch of that call
    resolves (whatever the status), the cached selected difficulty becomes
    L, and when it rejects the component state is left unchanged. *)
Theorem setDifficulty_effect (L : string) (w : World) :
  L ∈ levels ->
  mounted w = true ->
  view (render (ui w)) = DifficultyPage ->
  toLowerCase L ∈ ["easy"; "medium"; "hard"] /\
  exists w1,
    step w (Click (Level L)) = Some w1 /\
    requests w1 =
      (requests w ++
       [{| method := POST;
           url := "http://127.0.0.1:5002/difficulty/" ++ toLowerCase L |}])%list /\
    ui w1 = ui w /\
    difficulties w1 = (difficulties w ++ [L])%list /\
    forall w2 i r w3,
      mounted w2 = true ->
      difficulties w2 !! i = Some L ->
      step w2 (DifficultySettles i r) = Some w3 ->
      (r <> Rejected -> selectedDifficulty (ui w3) = L) /\
      (r = Rejected -> ui w3 = ui w2).
Proof.
  intros HL M V. split.
  { apply list_elem_of_In in HL. apply list_elem_of_In. simpl in *.
    destruct HL as [<-|[<-|[<-|[]]]]; simpl; tauto. }
  exists (click (Level L) w). split.
  { simpl. rewrite M. unfold render in *. destruct (page_view (ui w)) as [v fb].
    simpl in *. subst v. simpl.
    rewrite bool_decide_eq_true_2; [done|].
    apply list_elem_of_In. apply list_elem_of_In in HL. simpl in *.
    destruct HL as [<-|[<-|[<-|[]]]]; tauto. }
  split; [done|]. split; [done|]. split; [done|].
  intros w2 i r w3 M2 Hi H. simpl in H. rewrite Hi in H.
  inversion H; subst. clear H. split.
  - intros Hr. rewrite dispatch_ui by done. simpl.
    by apply setDifficulty_callback_apply.
  - intros ->. simpl. by rewrite dispatch_nil.
Qed.

Lemma setDifficulty_effect_witness :
  exists w1 w2,
    run mount [Click StartChallenge; Click (Level "Medium")] = Some w1 /\
    requests w1 = [{| method := POST;
                      url := "http://127.0.0.1:5002/difficulty/medium" |}] /\
    step w1 (DifficultySettles 0 (Response false None)) = Some w2 /\
    selectedDifficulty (ui w2) = "Medium".
Proof.
  destruct (setDifficulty_effect "Medium" (click StartChallenge mount))
    as (_ & w1 & S1 & R1 & U1 & D1 & K).
  { apply list_elem_of_In. simpl. tauto. }
  { reflexivity. }
  { reflexivity. }
  exists w1. eexists. split.
  { simpl. exact S1. }
  split; [exact R1|].
  assert (S2 : step w1 (DifficultySettles 0 (Response false None))
               = Some (dispatch (setDifficulty_callback "Medium" (Response false None))
                         (with_difficulties (delete 0 (difficulties w1)) w1))).
  { simpl. rewrite D1. reflexivity. }
  split; [exact S2|].
  apply (K w1 0 (Response false None) _); [|by rewrite D1|exact S2|discriminate].
  vm_compute in S1. by inversion S1.
Defined.

(** *** The video feed fails to load *)

Lemma click_enabled w b :
  mounted w = true -> b ∈ buttons (render (ui w)) -> is_Some (step w (Click b)).
Proof.
  intros M Hb. simpl. rewrite M. by rewrite bool_decide_eq_true_2.
Qed.

(** C7: when the video stream image fails to load, in either component,
    the error text is set and rendered as exactly one message; the game
    state, the selected difficulty and the current page are unchanged, the
    same page with the same clickable elements is rendered, the timers and
    suspended callbacks are untouched, and every rendered element still
    answers a click. *)
Theorem video_feed_error_is_inline (w w' : World) (s : Stream.World) :
  step w ImgError = Some w' ->
  (error (ui w') = "Cannot connect to camera" /\
   error_boxes (render (ui w')) = ["Cannot connect to camera"] /\
   gameState (ui w') = gameState (ui w) /\
   selectedDifficulty (ui w') = selectedDifficulty (ui w) /\
   currentPage (ui w') = currentPage (ui w) /\
   view (render (ui w')) = view (render (ui w)) /\
   buttons (render (ui w')) = buttons (render (ui w)) /\
   video_feed (render (ui w')) = video_feed (render (ui w)) /\
   mounted w' = true /\ timers w' = timers w /\ polls w' = polls w /\
   (forall b, b ∈ buttons (render (ui w')) -> is_Some (step w' (Click b)))) /\
  (exists s',
     Stream.step s Stream.ImgError = Some s' /\
     Stream.error_boxes (Stream.render (Stream.ui s')) =
       ["Can't reach the Python stream at http://127.0.0.1:5002/video_feed"] /\
     Stream.start_button (Stream.render (Stream.ui s')) = true /\
     Stream.video_feed (Stream.render (Stream.ui s')) = true /\
     Stream.frame_link (Stream.render (Stream.ui s')) = true /\
     Stream.requests s' = Stream.requests s /\
     is_Some (Stream.step s' Stream.ClickStart)).
Proof.
  intros H. split.
  - simpl in H. destruct (mounted w) eqn:M; [|done]. simpl in H.
    destruct (video_feed _) eqn:V; [|done]. inversion H; subst. clear H.
    assert (E : dispatch img_onError w =
                with_ui (apply_calls (ui w) img_onError) w).
    { unfold dispatch. rewrite M. by apply commit_same. }
    rewrite E.
    assert (R : forall st,
               render (apply_calls st img_onError) =
               {| view := view (render st); fallback := fallback (render st);
                  buttons := buttons (render st);
                  video_feed := video_feed (render st);
                  error_boxes := ["Cannot connect to camera"] |}).
    { intros st. unfold render, page_view. simpl.
      destruct (pages !! currentPage st) as [[]|]; done. }
    unfold with_ui; cbn [ui mounted timers polls]. rewrite R.
    cbn [view buttons video_feed error_boxes]. repeat split; try done.
    intros b Hb. apply click_enabled; [exact M|].
    cbn [ui]. rewrite R. exact Hb.
  - eexists. split; [reflexivity|]. simpl. repeat split; done.
Qed.

Lemma video_feed_error_is_inline_witness :
  exists w w',
    run mount [Click StartChallenge; Click StartGame] = Some w /\
    step w ImgError = Some w' /\
    error_boxes (render (ui w')) = ["Cannot connect to camera"] /\
    buttons (render (ui w')) = [StartRound; Settings].
Proof.
  eexists _, _. split; [vm_compute; reflexivity|].
  split; [vm_compute; reflexivity|].
  match goal with
  | |- error_boxes (render (ui ?w')) = _ /\ _ =>
      destruct (video_feed_error_is_inline
                  (click StartGame (click StartChallenge mount)) w'
                  Stream.mount eq_refl)
        as ((_ & B & _ & _ & _ & _ & Bs & _) & _)
  end.
  split; [exact B|]. rewrite Bs. reflexivity.
Defined.

(** *** The poll timer *)

Lemma reachable_timer_inv w : reachable w -> timer_inv w.
Proof. intros [es H]. eapply run_timer_inv; [exact H|apply mount_timer_inv]. Qed.

(** C8, refuted as stated: clearing the interval does not stop a callback
    that is already awaiting its fetch. The interval fires on the welcome
    page, the user clicks the start button (the page changes, the effect is
    torn down, interval 0 is cleared), and the poll callback then runs on
    after the teardown: it stores the snapshot of the response. *)
Lemma suspended_poll_resumes_after_teardown :
  exists w w',
    run mount [IntervalFires 0; Click StartChallenge] = Some w /\
    timers w !! 0 = None /\
    polls w = [{| poll_timer := 0; poll_page := "welcome" |}] /\
    gameState (ui w) = Null /\
    step w (StateSettles 0 (Response true (Some completed))) = Some w' /\
    gameState (ui w') = completed.
Proof.
  eexists _, _. split; [by vm_compute|].
  split; [by vm_compute|]. split; [done|]. split; [done|].
  split; [by vm_compute|]. done.
Qed.

(** C8, amended: in every state the component can reach, the browser holds
    exactly one poll interval while the component is mounted, with a delay
    of 1000 ms (it fires once per second) and a callback created for the
    current page, and none once it is unmounted; the timer starts the
    callback only for a live interval; and when the effect is torn down, by
    an unmount or by a change of the current page, the interval that was
    live is cleared and no poll callback is started by it again, whatever
    happens afterwards. *)
Theorem poll_timer_lifecycle (w : World) :
  reachable w ->
  (if mounted w
   then exists id,
          timers w =
            {[ id := {| delay := 1000; timer_page := currentPage (ui w) |} ]}
   else timers w = ∅) /\
  size (timers w) = (if mounted w then 1 else 0) /\
  (forall id, is_Some (step w (IntervalFires id)) <-> is_Some (timers w !! id)) /\
  (forall e w' id,
     is_Some (timers w !! id) ->
     step w e = Some w' ->
     e = Unmount \/ currentPage (ui w') <> currentPage (ui w) ->
     timers w' !! id = None /\
     forall es w'',
       run w' es = Some w'' -> step w'' (IntervalFires id) = None).
Proof.
  intros R. pose proof (reachable_timer_inv w R) as I.
  split; [|split; [|split]].
  - unfold timer_inv in I. destruct (mounted w); [|done].
    destruct I as (id & _ & _ & Ht). by exists id.
  - unfold timer_inv in I. destruct (mounted w).
    + destruct I as (id & _ & _ & ->). apply map_size_singleton.
    + rewrite I. apply map_size_empty.
  - intros id. simpl. destruct (timers w !! id) as [t|]; split; intros [x Hx];
      try done; by eexists.
  - intros e w' id Hlive H Hcause.
    pose proof (teardown_clears w e w' id I Hlive H Hcause) as C.
    split; [apply C|]. intros es w'' Hrun.
    destruct (run_cleared id es w' w'' Hrun C) as [_ Hn].
    simpl. by rewrite Hn.
Qed.

Lemma poll_timer_lifecycle_witness :
  timers mount = {[ 0 := {| delay := 1000; timer_page := "welcome" |} ]} /\
  (exists w', step mount (Click StartChallenge) = Some w' /\
              step w' (IntervalFires 0) = None).
Proof.
  assert (R : reachable mount) by (exists []; reflexivity).
  destruct (poll_timer_lifecycle mount R) as (_ & _ & _ & T).
  split; [reflexivity|].
  eexists. split; [vm_compute; reflexivity|].
  refine (proj2 (T (Click StartChallenge) _ 0 _ eq_refl _) [] _ eq_refl).
  - by eexists.
  - right. discriminate.
Defined.

(** *** Resetting the game *)

(** C9: [resetGame] sends POST /reset and changes nothing by itself; when
    the call resumes (in the mounted component), it sets the current page (to 'welcome') if and only
    if the fetch did not throw, so the page then is 'welcome'; when the
    fetch threw, the component state, the page with it, is left unchanged. *)
Theorem resetGame_atomic_on_error (w : World) (r : Fetched) (w' : World) :
  mounted w = true ->
  step w (ResetSettles r) = Some w' ->
  (forall w0, ui (resetGame w0) = ui w0 /\
              requests (resetGame w0) =
                (requests w0 ++
                 [{| method := POST; url := "http://127.0.0.1:5002/reset" |}])%list) /\
  (forall p, In (setCurrentPage p) (resetGame_callback r) <->
             r <> Rejected /\ p = "welcome") /\
  (r <> Rejected -> currentPage (ui w') = "welcome") /\
  (r = Rejected -> ui w' = ui w).
Proof.
  intros M H. simpl in H. destruct (resets w) as [|n]; [done|].
  inversion H; subst. clear H. split; [done|]. split; [|split].
  - intros p. destruct r; simpl.
    + split; [tauto|]. by intros [? _].
    + split.
      * intros [[= <-]|[]]. done.
      * intros [_ ->]. by left.
  - intros Hr. rewrite dispatch_ui by done. destruct r; done.
  - intros ->. simpl. by rewrite dispatch_nil.
Qed.

Lemma resetGame_atomic_on_error_witness :
  exists w',
    step (resetGame (dispatch [setCurrentPage "results"] mount))
         (ResetSettles (Response true None)) = Some w' /\
    currentPage (ui w') = "welcome".
Proof.
  eexists. split; [vm_compute; reflexivity|].
  refine (proj1 (proj2 (proj2
            (resetGame_atomic_on_error
               (resetGame (dispatch [setCurrentPage "results"] mount))
               (Response true None) _ eq_refl eq_refl))) _).
  discriminate.
Defined.

(** *** The current page *)

(** C10: the current page starts as 'welcome'; in every state the
    component can reach it is one of 'welcome', 'difficulty', 'gameplay'
    and 'results', every step from there being an unmount or a batch of
    setter calls whose [setCurrentPage] arguments are among those four
    names; so the lookup in [pages] finds a view and the render never takes
    the WelcomePage fallback. *)
Theorem current_page_invariant (w : World) :
  reachable w ->
  currentPage initial = "welcome" /\
  currentPage (ui w) ∈ page_names /\
  (forall e w',
     step w e = Some w' ->
     e = Unmount \/
     exists cs w0, same_core w0 w /\ literal_pages cs /\ w' = dispatch cs w0) /\
  is_Some (pages !! currentPage (ui w)) /\
  fallback (render (ui w)) = false.
Proof.
  intros [es H]. split; [done|].
  assert (P : currentPage (ui w) ∈ page_names).
  { eapply run_page; [exact H|]. apply list_elem_of_In. simpl. tauto. }
  split; [done|]. split.
  { intros e w' S. destruct (step_shape _ _ _ S) as [(-> & _)|C]; tauto. }
  pose proof (page_names_lookup _ P) as [v Hv].
  split; [by exists v|]. unfold render, page_view. by rewrite Hv.
Qed.

Lemma current_page_invariant_witness :
  exists w,
    run mount [Click StartChallenge; Click StartGame; Click Settings] = Some w /\
    currentPage (ui w) = "difficulty" /\
    fallback (render (ui w)) = false.
Proof.
  eexists. split; [vm_compute; reflexivity|]. split; [reflexivity|].
  refine (proj2 (proj2 (proj2 (proj2 (current_page_invariant _ _))))).
  exists [Click StartChallenge; Click StartGame; Click Settings].
  vm_compute. reflexivity.
Defined.

(** ** Further properties of the polling variant *)

Lemma commit_frame st w :
  polls (commit st w) = polls w /\
  difficulties (commit st w) = difficulties w /\
  resets (commit st w) = resets w /\
  timeouts (commit st w) = timeouts w /\
  requests (commit st w) = requests w.
Proof.
  unfold commit. destruct (String.eqb _ _); [done|].
  unfold run_effect, cleanup. simpl. by destruct (handle w).
Qed.

(** Setter calls touch neither the suspended callbacks nor the requests. *)
Lemma dispatch_frame cs w :
  polls (dispatch cs w) = polls w /\
  difficulties (dispatch cs w) = difficulties w /\
  resets (dispatch cs w) = resets w /\
  timeouts (dispatch cs w) = timeouts w /\
  requests (dispatch cs w) = requests w.
Proof.
  unfold dispatch. destruct (mounted w); [|done]. apply commit_frame.
Qed.

Lemma dispatch_ui_cases cs w :
  ui (dispatch cs w) = if mounted w then apply_calls (ui w) cs else ui w.
Proof.
  destruct (mounted w) eqn:M.
  - by apply dispatch_ui.
  - by rewrite dispatch_unmounted.
Qed.

(** What a step that happens amounts to, event by event. *)
Lemma step_elim w e w' :
  step w e = Some w' ->
  match e with
  | Click b =>
      mounted w = true /\ b ∈ buttons (render (ui w)) /\ w' = click b w
  | ImgError =>
      mounted w = true /\ video_feed (render (ui w)) = true /\
      w' = dispatch img_onError w
  | IntervalFires id =>
      exists t, timers w !! id = Some t /\
        w' = with_polls
               (polls w ++ [{| poll_timer := id; poll_page := timer_page t |}])
               (send state_request w)
  | StateSettles i r =>
      exists p, polls w !! i = Some p /\
        w' = dispatch (poll_callback (poll_page p) r)
               (with_polls (delete i (polls w)) w)
  | DifficultySettles i r =>
      exists l, difficulties w !! i = Some l /\
        w' = dispatch (setDifficulty_callback l r)
               (with_difficulties (delete i (difficulties w)) w)
  | ResetSettles r =>
      exists n, resets w = S n /\
        w' = dispatch (resetGame_callback r) (with_resets n w)
  | TimeoutFires =>
      exists n, timeouts w = S n /\
        w' = dispatch [setCurrentPage "difficulty"] (with_timeouts n w)
  | Unmount => mounted w = true /\ w' = unmount w
  end.
Proof.
  destruct e as [b| |id|i r|i r|r| |]; simpl; intros H.
  - destruct (mounted w); [|done]. simpl in H.
    destruct (bool_decide _) eqn:B; [|done].
    apply bool_decide_eq_true in B. by inversion H.
  - destruct (mounted w); [|done]. simpl in H.
    destruct (video_feed _); [|done]. by inversion H.
  - destruct (timers w !! id) as [t|]; [|done]. inversion H. by exists t.
  - destruct (polls w !! i) as [p|]; [|done]. inversion H. by exists p.
  - destruct (difficulties w !! i) as [l|]; [|done]. inversion H. by exists l.
  - destruct (resets w) as [|n]; [done|]. inversion H. by exists n.
  - destruct (timeouts w) as [|n]; [done|]. inversion H. by exists n.
  - destruct (mounted w); [|done]. by inversion H.
Qed.

(** An invariant of the steps that holds at mount holds wherever the
    component can get. *)
Lemma reachable_ind (P : World -> Prop) :
  P mount ->
  (forall w e w', P w -> step w e = Some w' -> P w') ->
  forall w, reachable w -> P w.
Proof.
  intros H0 Hstep w [es Hrun].
  assert (G : forall es w0 w1, P w0 -> run w0 es = Some w1 -> P w1).
  { clear Hrun. intros es'. induction es' as [|e es' IH]; simpl; intros w0 w1 HP H.
    - by inversion H; subst.
    - destruct (step w0 e) as [w2|] eqn:S; [|done]. eauto. }
  exact (G es mount w H0 Hrun).
Qed.

(** *** Navigation *)

Lemma page_view_cases st :
  currentPage st ∈ page_names ->
  (currentPage st = "welcome" /\ page_view st = (WelcomePage, false)) \/
  (currentPage st = "difficulty" /\ page_view st = (DifficultyPage, false)) \/
  (currentPage st = "gameplay" /\ page_view st = (GameplayPage, false)) \/
  (currentPage st = "results" /\ page_view st = (ResultsPage, false)).
Proof.
  intros Hp. apply list_elem_of_In in Hp. simpl in Hp. unfold page_view.
  destruct Hp as [E|[E|[E|[E|[]]]]]; rewrite <- E; tauto.
Qed.

(** A rendered button belongs to the current page, and a level card
    carries one of the three levels. *)
Lemma rendered_button st b :
  currentPage st ∈ page_names ->
  b ∈ buttons (render st) ->
  button_page b = currentPage st /\
  (forall l, b = Level l -> l ∈ levels).
Proof.
  intros Hp Hb. unfold render in Hb.
  destruct (page_view_cases st Hp) as [[E V]|[[E V]|[[E V]|[E V]]]];
    rewrite V in Hb; simpl in Hb; rewrite E;
    apply list_elem_of_In in Hb; simpl in Hb.
  - destruct Hb as [<-|[]]. done.
  - destruct Hb as [<-|[<-|[<-|[<-|[<-|[]]]]]]; (split; [done|]);
      intros l [= <-]; apply list_elem_of_In; simpl; tauto.
  - destruct (_ && _); simpl in Hb.
    + destruct Hb as [<-|[<-|[]]]; done.
    + destruct Hb as [<-|[]]; done.
  - destruct Hb as [<-|[<-|[]]]; done.
Qed.

Lemma reachable_page w : reachable w -> currentPage (ui w) ∈ page_names.
Proof.
  intros [es H]. eapply run_page; [exact H|].
  apply list_elem_of_In. simpl. tauto.
Qed.

Lemma poll_callback_page st page r :
  currentPage (apply_calls st (poll_callback page r)) =
  if reports_completed r && String.eqb page "gameplay"
  then "results" else currentPage st.
Proof.
  destruct r as [|[] [data|]]; simpl; try done.
  destruct (get data "game_status") as [status|]; simpl; [|done].
  destruct (truthy _); simpl; [|done].
  destruct (String.eqb page "gameplay"); done.
Qed.

(** X1: the page router's transition table. In a state the component can
    reach, a step that changes the current page is one of: the start
    button (welcome to difficulty), Back (difficulty to welcome), Start
    Game (difficulty to gameplay), Settings (gameplay to difficulty), a
    poll response that reports the game completed (to results), a
    [resetGame] whose fetch did not reject (to welcome), or the timeout of
    Play Again (to difficulty). *)
Theorem page_transitions (w : World) (e : Event) (w' : World) :
  reachable w ->
  step w e = Some w' ->
  currentPage (ui w') <> currentPage (ui w) ->
  navigation e (currentPage (ui w)) (currentPage (ui w')).
Proof.
  intros R H Hne. pose proof (reachable_page w R) as Hp.
  apply step_elim in H. destruct e as [b| |id|i r|i r|r| |].
  - destruct H as (M & Hb & ->).
    destruct (rendered_button _ _ Hp Hb) as [Hpage _].
    destruct b; simpl in *;
      try (rewrite dispatch_ui in * by done; simpl in *; rewrite <- Hpage;
           constructor);
      done.
  - destruct H as (M & _ & ->). rewrite dispatch_ui in Hne by done. done.
  - destruct H as (t & _ & ->). done.
  - destruct H as (p & _ & ->). rewrite dispatch_ui_cases in *. simpl in *.
    destruct (mounted w); [|done]. rewrite poll_callback_page in *.
    destruct (reports_completed r) eqn:C; simpl in *; [|done].
    destruct (String.eqb _ _); [|done]. by constructor.
  - destruct H as (l & _ & ->). rewrite dispatch_ui_cases in *. simpl in *.
    destruct (mounted w); [|done]. by destruct r.
  - destruct H as (n & _ & ->). rewrite dispatch_ui_cases in *. simpl in *.
    destruct (mounted w); [|done]. destruct r; [done|]. by constructor.
  - destruct H as (n & _ & ->). rewrite dispatch_ui_cases in *. simpl in *.
    destruct (mounted w); [|done]. constructor.
  - destruct H as (_ & ->). by rewrite unmount_ui in Hne.
Qed.

Lemma page_transitions_witness :
  navigation (Click StartChallenge) "welcome" "difficulty".
Proof.
  assert (R : reachable mount) by (exists []; reflexivity).
  apply (page_transitions mount (Click StartChallenge)
           (click StartChallenge mount) R eq_refl).
  discriminate.
Defined.

(** *** The selected difficulty *)

Lemma difficulty_inv_step w e w' :
  currentPage (ui w) ∈ page_names ->
  difficulty_inv w -> step w e = Some w' -> difficulty_inv w'.
Proof.
  unfold difficulty_inv. intros Hp [Hs Hd] H. apply step_elim in H.
  destruct e as [b| |id|i r|i r|r| |].
  - destruct H as (M & Hb & ->).
    destruct (rendered_button _ _ Hp Hb) as [_ Hl].
    destruct b; simpl;
      rewrite ?dispatch_ui by done;
      try (destruct (dispatch_frame [setCurrentPage "difficulty"] w)
             as (_ & -> & _));
      try (destruct (dispatch_frame [setCurrentPage "welcome"] w)
             as (_ & -> & _));
      try (destruct (dispatch_frame [setCurrentPage "gameplay"] w)
             as (_ & -> & _));
      try done.
    split; [done|]. apply Forall_app. split; [done|].
    apply Forall_singleton. by apply Hl.
  - destruct H as (M & _ & ->). rewrite dispatch_ui by done.
    destruct (dispatch_frame img_onError w) as (_ & -> & _). done.
  - destruct H as (t & _ & ->). done.
  - destruct H as (p & _ & ->).
    match goal with
    | |- context [dispatch ?cs ?w0] =>
        destruct (dispatch_frame cs w0) as (_ & -> & _);
        rewrite (dispatch_ui_cases cs w0)
    end.
    simpl. split; [|done]. destruct (mounted w); [|done].
    by rewrite (proj1 (proj2 (poll_callback_apply (ui w) (poll_page p) r))).
  - destruct H as (l & Hl & ->).
    match goal with
    | |- context [dispatch ?cs ?w0] =>
        destruct (dispatch_frame cs w0) as (_ & -> & _);
        rewrite (dispatch_ui_cases cs w0)
    end.
    simpl. split.
    + destruct (mounted w); [|done]. destruct r; simpl; [done|].
      apply (proj1 (Forall_lookup _ _) Hd i l Hl).
    + apply Forall_delete. done.
  - destruct H as (n & _ & ->).
    match goal with
    | |- context [dispatch ?cs ?w0] =>
        destruct (dispatch_frame cs w0) as (_ & -> & _);
        rewrite (dispatch_ui_cases cs w0)
    end.
    simpl. split; [|done]. destruct (mounted w); [|done]. by destruct r.
  - destruct H as (n & _ & ->).
    match goal with
    | |- context [dispatch ?cs ?w0] =>
        destruct (dispatch_frame cs w0) as (_ & -> & _);
        rewrite (dispatch_ui_cases cs w0)
    end.
    simpl. split; [|done]. by destruct (mounted w).
  - destruct H as (_ & ->). rewrite unmount_ui. unfold unmount, cleanup.
    simpl. by destruct (handle w).
Qed.

Lemma reachable_difficulty_inv w : reachable w -> difficulty_inv w.
Proof.
  intros R.
  enough (G : currentPage (ui w) ∈ page_names /\ difficulty_inv w) by apply G.
  revert w R. apply reachable_ind.
  - split; [apply list_elem_of_In; simpl; tauto|].
    split; [apply list_elem_of_In; simpl; tauto|constructor].
  - intros w e w' [Hp Hd] H. split.
    + by eapply step_page.
    + by eapply difficulty_inv_step.
Qed.

(** X2: in every state the component can reach, the selected difficulty is
    one of Easy, Medium and Hard, so the difficulty page highlights exactly
    one of its three cards, the one of that level, with its own colour. *)
Theorem one_level_highlighted (w : World) :
  reachable w ->
  selectedDifficulty (ui w) ∈ levels /\
  map card_level level_cards = levels /\
  exists c,
    filter (fun c => card_selected (ui w) c = true) level_cards = [c] /\
    card_level c = selectedDifficulty (ui w) /\
    background (card_style (ui w) c) = card_color c.
Proof.
  intros R. destruct (reachable_difficulty_inv w R) as [Hs _].
  split; [done|]. split; [done|].
  apply list_elem_of_In in Hs. simpl in Hs.
  unfold card_style, card_selected.
  destruct Hs as [E|[E|[E|[]]]]; rewrite <- E;
    eexists; (split; [reflexivity|]); done.
Qed.

Lemma one_level_highlighted_witness :
  selectedDifficulty (ui mount) ∈ levels.
Proof.
  assert (R : reachable mount) by (exists []; reflexivity).
  apply (one_level_highlighted mount R).
Defined.

(** *** What changes the error text and the game state *)

Lemma apply_calls_page_only st p :
  error (apply_calls st [setCurrentPage p]) = error st /\
  gameState (apply_calls st [setCurrentPage p]) = gameState st.
Proof. done. Qed.

(** A step either keeps the error text or is the image failure that sets
    the camera message. *)
Lemma step_error w e w' :
  step w e = Some w' ->
  error (ui w') = error (ui w) \/
  (e = ImgError /\ error (ui w') = camera_error).
Proof.
  intros H. apply step_elim in H. destruct e as [b| |id|i r|i r|r| |].
  - destruct H as (M & _ & ->). left.
    destruct b; simpl; rewrite ?dispatch_ui by done; done.
  - destruct H as (M & _ & ->). right. by rewrite dispatch_ui.
  - destruct H as (t & _ & ->). by left.
  - destruct H as (p & _ & ->). left. rewrite dispatch_ui_cases. simpl.
    destruct (mounted w); [|done]. apply poll_callback_apply.
  - destruct H as (l & _ & ->). left. rewrite dispatch_ui_cases. simpl.
    destruct (mounted w); [|done]. by destruct r.
  - destruct H as (n & _ & ->). left. rewrite dispatch_ui_cases. simpl.
    destruct (mounted w); [|done]. by destruct r.
  - destruct H as (n & _ & ->). left. rewrite dispatch_ui_cases. simpl.
    by destruct (mounted w).
  - destruct H as (_ & ->). left. by rewrite unmount_ui.
Qed.

(** X3: nothing clears the camera error. Once the error text is "Cannot
    connect to camera", no event changes it: after any sequence of events
    (navigation, polls, resets, a further failure) the [error] cell still
    holds that text. *)
Theorem camera_error_persists (w : World) (es : list Event) (w' : World) :
  error (ui w) = camera_error ->
  run w es = Some w' ->
  error (ui w') = camera_error.
Proof.
  revert w. induction es as [|e es IH]; simpl; intros w He Hrun.
  - by inversion Hrun; subst.
  - destruct (step w e) as [w1|] eqn:S; [|done].
    apply (IH w1); [|done].
    destruct (step_error _ _ _ S) as [->|[_ ->]]; done.
Qed.

Lemma camera_error_persists_witness :
  exists w',
    run (dispatch img_onError mount)
        [Click StartChallenge; Click StartGame; Click Settings] = Some w' /\
    error (ui w') = camera_error.
Proof.
  eexists. split; [vm_compute; reflexivity|].
  apply (camera_error_persists (dispatch img_onError mount)
           [Click StartChallenge; Click StartGame; Click Settings] _
           eq_refl eq_refl).
Defined.

(** X4: the stored game state is replaced only by a poll response that is
    ok and whose body parses, and then by that body. No click, reset,
    difficulty change, timeout or failure touches it: after [resetGame]
    the previous snapshot stays until the next successful poll. *)
Theorem gameState_only_from_poll (w : World) (e : Event) (w' : World) :
  step w e = Some w' ->
  gameState (ui w') <> gameState (ui w) ->
  exists i data,
    e = StateSettles i (Response true (Some data)) /\
    gameState (ui w') = data.
Proof.
  intros H Hne. apply step_elim in H. destruct e as [b| |id|i r|i r|r| |].
  - destruct H as (M & _ & ->).
    destruct b; simpl in Hne; rewrite ?dispatch_ui in Hne by done; done.
  - destruct H as (M & _ & ->). by rewrite dispatch_ui in Hne.
  - destruct H as (t & _ & ->). done.
  - destruct H as (p & _ & ->). rewrite dispatch_ui_cases in *. simpl in *.
    destruct (mounted w); [|done].
    destruct (poll_callback_apply (ui w) (poll_page p) r)
      as (_ & _ & Hok & Hfail & _).
    destruct r as [|[] [data|]].
    + by rewrite Hfail in Hne.
    + exists i, data. split; [done|]. by apply Hok.
    + by rewrite Hfail in Hne.
    + by rewrite Hfail in Hne.
    + by rewrite Hfail in Hne.
  - destruct H as (l & _ & ->). rewrite dispatch_ui_cases in *. simpl in *.
    destruct (mounted w); [|done]. by destruct r.
  - destruct H as (n & _ & ->). rewrite dispatch_ui_cases in *. simpl in *.
    destruct (mounted w); [|done]. by destruct r.
  - destruct H as (n & _ & ->). rewrite dispatch_ui_cases in *. simpl in *.
    by destruct (mounted w).
  - destruct H as (_ & ->). by rewrite unmount_ui in Hne.
Qed.

Lemma gameState_only_from_poll_witness :
  exists i data,
    StateSettles 0 (Response true (Some completed)) =
      StateSettles i (Response true (Some data)) /\
    data = completed.
Proof.
  destruct (gameState_only_from_poll
              (with_polls [{| poll_timer := 0; poll_page := "welcome" |}] mount)
              (StateSettles 0 (Response true (Some completed))) _ eq_refl)
    as (i & data & E & G).
  { discriminate. }
  exists i, data. split; [exact E|]. by inversion E.
Defined.

(** *** The requests *)

Lemma endpoint_difficulty l : l ∈ levels -> difficulty_request l ∈ endpoints.
Proof.
  intros Hl. apply list_elem_of_In in Hl. apply list_elem_of_In. simpl in *.
  destruct Hl as [<-|[<-|[<-|[]]]]; vm_compute; tauto.
Qed.

Lemma step_requests w e w' :
  currentPage (ui w) ∈ page_names ->
  step w e = Some w' ->
  requests w' = requests w \/
  exists r, r ∈ endpoints /\ requests w' = (requests w ++ [r])%list.
Proof.
  intros Hp H. apply step_elim in H. destruct e as [b| |id|i r|i r|r| |].
  - destruct H as (M & Hb & ->).
    destruct (rendered_button _ _ Hp Hb) as [_ Hl].
    assert (E : forall q, q ∈ endpoints ->
                (requests w ++ [q])%list = requests w \/
                exists r, r ∈ endpoints /\
                          (requests w ++ [q])%list = (requests w ++ [r])%list).
    { intros q Hq. right. by exists q. }
    assert (D : forall cs, requests (dispatch cs w) = requests w).
    { intros cs. apply dispatch_frame. }
    destruct b; simpl; rewrite ?D; try (by left).
    + apply E. by apply endpoint_difficulty, Hl.
    + apply E. apply list_elem_of_In. vm_compute. tauto.
    + apply E. apply list_elem_of_In. vm_compute. tauto.
    + apply E. apply list_elem_of_In. vm_compute. tauto.
  - destruct H as (_ & _ & ->). left. apply dispatch_frame.
  - destruct H as (t & _ & ->). right. exists state_request.
    split; [|done]. apply list_elem_of_In. vm_compute. tauto.
  - destruct H as (p & _ & ->). left.
    match goal with
    | |- context [dispatch ?cs ?w0] =>
        by destruct (dispatch_frame cs w0) as (_ & _ & _ & _ & ->)
    end.
  - destruct H as (l & _ & ->). left.
    match goal with
    | |- context [dispatch ?cs ?w0] =>
        by destruct (dispatch_frame cs w0) as (_ & _ & _ & _ & ->)
    end.
  - destruct H as (n & _ & ->). left.
    match goal with
    | |- context [dispatch ?cs ?w0] =>
        by destruct (dispatch_frame cs w0) as (_ & _ & _ & _ & ->)
    end.
  - destruct H as (n & _ & ->). left.
    match goal with
    | |- context [dispatch ?cs ?w0] =>
        by destruct (dispatch_frame cs w0) as (_ & _ & _ & _ & ->)
    end.
  - destruct H as (_ & ->). left. unfold unmount, cleanup. simpl.
    by destruct (handle w).
Qed.

(** X5: whatever the user and the backend do, every call of [fetch] the
    component makes is one of six: GET /state, POST /start, POST /reset
    and POST /difficulty/easy, /medium or /hard, all on
    http://127.0.0.1:5002; and a step makes at most one such call. (The
    video feed is loaded by the browser for the image, not by [fetch].) *)
Theorem fetch_calls_are_endpoints (w : World) :
  reachable w ->
  Forall (fun r => r ∈ endpoints) (requests w) /\
  (forall e w', step w e = Some w' ->
     requests w' = requests w \/
     exists r, r ∈ endpoints /\ requests w' = (requests w ++ [r])%list).
Proof.
  intros R. split.
  - enough (G : currentPage (ui w) ∈ page_names /\
                Forall (fun r => r ∈ endpoints) (requests w)) by apply G.
    revert w R. apply reachable_ind.
    + split; [apply list_elem_of_In; simpl; tauto|constructor].
    + intros w e w' [Hp Hr] H. split; [by eapply step_page|].
      destruct (step_requests _ _ _ Hp H) as [->|(r & Hr' & ->)]; [done|].
      apply Forall_app. split; [done|]. by apply Forall_singleton.
  - intros e w' H. apply (step_requests w e w'); [|done]. by apply reachable_page.
Qed.

Lemma fetch_calls_are_endpoints_witness :
  Forall (fun r => r ∈ endpoints)
         (requests (click (Level "Hard") (click StartChallenge mount))).
Proof.
  apply (fetch_calls_are_endpoints (click (Level "Hard") (click StartChallenge mount))).
  exists [Click StartChallenge; Click (Level "Hard")]. vm_compute. reflexivity.
Defined.

(** *** Polls of the live interval *)

Lemma commit_fresh st w : fresh_polls w -> fresh_polls (commit st w).
Proof.
  unfold fresh_polls. intros Hf.
  destruct (commit_frame st w) as (-> & _).
  unfold commit. destruct (String.eqb _ _) eqn:E.
  - apply String.eqb_eq in E. simpl. by rewrite E.
  - eapply Forall_impl; [exact Hf|]. intros p [Hlt _].
    unfold run_effect, cleanup. simpl. destruct (handle w); simpl.
    + split; [lia|]. intros [= Hh]. lia.
    + split; [lia|]. intros [= Hh]. lia.
Qed.

Lemma dispatch_fresh cs w : fresh_polls w -> fresh_polls (dispatch cs w).
Proof.
  intros Hf. unfold dispatch. destruct (mounted w); [|done].
  by apply commit_fresh.
Qed.

Lemma step_fresh w e w' :
  timer_inv w -> fresh_polls w -> step w e = Some w' -> fresh_polls w'.
Proof.
  intros I Hf H. apply step_elim in H. destruct e as [b| |id|i r|i r|r| |].
  - destruct H as (M & _ & ->).
    destruct b; simpl; try (by apply dispatch_fresh); done.
  - destruct H as (_ & _ & ->). by apply dispatch_fresh.
  - destruct H as (t & Ht & ->). unfold fresh_polls in *. simpl.
    apply Forall_app. split; [done|]. apply Forall_singleton. simpl.
    unfold timer_inv in I. destruct (mounted w).
    + destruct I as (h & Hh & Hlt & Hts). rewrite Hts in Ht.
      apply lookup_singleton_Some in Ht. destruct Ht as [<- <-]. done.
    + rewrite I in Ht. by rewrite lookup_empty in Ht.
  - destruct H as (p & _ & ->). apply dispatch_fresh.
    unfold fresh_polls in *. simpl. by apply Forall_delete.
  - destruct H as (l & _ & ->). by apply dispatch_fresh.
  - destruct H as (n & _ & ->). by apply dispatch_fresh.
  - destruct H as (n & _ & ->). by apply dispatch_fresh.
  - destruct H as (_ & ->). unfold fresh_polls in *.
    unfold unmount, cleanup.
    destruct (handle w) eqn:Eh; simpl; rewrite ?Eh;
      (eapply Forall_impl; [exact Hf|]); intros p [Hlt _];
      (split; [exact Hlt|intros Hn; discriminate Hn]).
Qed.

Lemma reachable_fresh w : reachable w -> fresh_polls w.
Proof.
  intros R.
  enough (G : timer_inv w /\ fresh_polls w) by apply G.
  revert w R. apply reachable_ind.
  - split; [apply mount_timer_inv|constructor].
  - intros w e w' [I Hf] H. split.
    + by eapply step_timer_inv.
    + by eapply step_fresh.
Qed.

(** X6: a poll started by the interval that is still live closed over the
    page that is current when its response arrives, so for such a poll the
    automatic navigation is exact: the page becomes 'results' when the
    response reports the game completed and the current page is
    'gameplay', and stays as it is otherwise. *)
Theorem live_poll_sees_current_page (w : World) (i : nat) (p : Poll)
    (r : Fetched) (w' : World) :
  reachable w ->
  mounted w = true ->
  polls w !! i = Some p ->
  handle w = Some (poll_timer p) ->
  step w (StateSettles i r) = Some w' ->
  poll_page p = currentPage (ui w) /\
  currentPage (ui w') =
    if reports_completed r && String.eqb (currentPage (ui w)) "gameplay"
    then "results" else currentPage (ui w).
Proof.
  intros R M Hp Hh H.
  pose proof (reachable_fresh w R) as Hf. unfold fresh_polls in Hf.
  destruct (proj1 (Forall_lookup _ _) Hf i p Hp) as [_ Hpage].
  specialize (Hpage Hh). split; [done|].
  simpl in H. rewrite Hp in H. inversion H; subst. clear H.
  rewrite dispatch_ui by done. simpl.
  by rewrite poll_callback_page, Hpage.
Qed.

Lemma live_poll_sees_current_page_witness :
  exists w',
    step (with_polls [{| poll_timer := 2; poll_page := "gameplay" |}]
            (send state_request (click StartGame (click StartChallenge mount))))
         (StateSettles 0 (Response true (Some completed))) = Some w' /\
    currentPage (ui w') = "results".
Proof.
  eexists. split; [vm_compute; reflexivity|].
  refine (proj2 (live_poll_sees_current_page
                   (with_polls [{| poll_timer := 2; poll_page := "gameplay" |}]
                      (send state_request
                         (click StartGame (click StartChallenge mount))))
                   0 {| poll_timer := 2; poll_page := "gameplay" |}
                   (Response true (Some completed)) _ _
                   eq_refl eq_refl eq_refl eq_refl)).
  exists [Click StartChallenge; Click StartGame; IntervalFires 2].
  vm_compute. reflexivity.
Defined.

(** *** After unmount *)

Lemma step_unmounted w e w' :
  mounted w = false -> timers w = ∅ ->
  step w e = Some w' ->
  continuation e /\ ui w' = ui w /\ requests w' = requests w /\
  mounted w' = false /\ timers w' = ∅.
Proof.
  intros M T H. apply step_elim in H. destruct e as [b| |id|i r|i r|r| |].
  - destruct H as (M' & _). congruence.
  - destruct H as (M' & _). congruence.
  - destruct H as (t & Ht & _). rewrite T in Ht. by rewrite lookup_empty in Ht.
  - destruct H as (p & _ & ->). by rewrite dispatch_unmounted.
  - destruct H as (l & _ & ->). by rewrite dispatch_unmounted.
  - destruct H as (n & _ & ->). by rewrite dispatch_unmounted.
  - destruct H as (n & _ & ->). by rewrite dispatch_unmounted.
  - destruct H as (M' & _). congruence.
Qed.

(** X7: once the component is unmounted it is inert: the only events that
    can still happen are the continuations of callbacks suspended earlier
    and the pending timeouts; none of them changes the component state,
    sends a request or creates a timer. *)
Theorem unmounted_is_inert (w : World) (es : list Event) (w' : World) :
  reachable w ->
  mounted w = false ->
  run w es = Some w' ->
  Forall continuation es /\
  ui w' = ui w /\ requests w' = requests w /\
  mounted w' = false /\ timers w' = ∅.
Proof.
  intros R M. pose proof (reachable_timer_inv w R) as I.
  unfold timer_inv in I. rewrite M in I. clear R.
  revert w M I. induction es as [|e es IH]; simpl; intros w M T H.
  - by inversion H; subst.
  - destruct (step w e) as [w1|] eqn:S; [|done].
    destruct (step_unmounted _ _ _ M T S) as (C & U & Q & M1 & T1).
    destruct (IH w1 M1 T1 H) as (Cs & U' & Q' & M' & T').
    split; [by constructor|]. by rewrite U', Q'.
Qed.

Lemma unmounted_is_inert_witness :
  exists w',
    run (unmount (with_polls [{| poll_timer := 0; poll_page := "welcome" |}]
                    (send state_request mount)))
        [StateSettles 0 (Response true (Some completed))] = Some w' /\
    ui w' = initial.
Proof.
  eexists. split; [vm_compute; reflexivity|].
  refine (proj1 (proj2
            (unmounted_is_inert
               (unmount (with_polls [{| poll_timer := 0; poll_page := "welcome" |}]
                           (send state_request mount)))
               [StateSettles 0 (Response true (Some completed))] _ _
               eq_refl eq_refl))).
  exists [IntervalFires 0; Unmount]. vm_compute. reflexivity.
Defined.

(** *** Play Again *)

(** X8: Play Again on the results page sends POST /reset and arms the
    100 ms timeout without changing the state. If the reset settles before
    the timeout fires, the user ends on the difficulty page; if the timeout
    fires first, a reset that did not reject then moves the user on to the
    welcome page, and only a rejected one leaves the difficulty page. *)
Theorem play_again_race (w : World) :
  mounted w = true ->
  view (render (ui w)) = ResultsPage ->
  exists w1,
    step w (Click PlayAgain) = Some w1 /\
    ui w1 = ui w /\
    requests w1 =
      (requests w ++
       [{| method := POST; url := "http://127.0.0.1:5002/reset" |}])%list /\
    (forall r, exists wa,
       run w1 [ResetSettles r; TimeoutFires] = Some wa /\
       currentPage (ui wa) = "difficulty") /\
    (forall r, exists wb,
       run w1 [TimeoutFires; ResetSettles r] = Some wb /\
       currentPage (ui wb) =
         match r with Rejected => "difficulty" | Response _ _ => "welcome" end).
Proof.
  intros M V. exists (click PlayAgain w). split.
  { simpl. rewrite M. unfold render in *. destruct (page_view (ui w)) as [v fb].
    simpl in *. subst v. done. }
  split; [done|]. split; [done|]. split.
  - intros r. simpl.
    set (w2 := dispatch (resetGame_callback r)
                 (with_resets (resets w)
                    (with_timeouts (S (timeouts w)) (resetGame w)))).
    assert (M2 : mounted w2 = true) by (unfold w2; by rewrite dispatch_mounted).
    assert (T2 : timeouts w2 = S (timeouts w)).
    { unfold w2. by destruct (dispatch_frame (resetGame_callback r)
                               (with_resets (resets w)
                                  (with_timeouts (S (timeouts w)) (resetGame w))))
        as (_ & _ & _ & -> & _). }
    rewrite T2. eexists. split; [reflexivity|].
    rewrite dispatch_ui by done. done.
  - intros r. simpl.
    set (w2 := dispatch [setCurrentPage "difficulty"]
                 (with_timeouts (timeouts w)
                    (with_timeouts (S (timeouts w)) (resetGame w)))).
    assert (M2 : mounted w2 = true) by (unfold w2; by rewrite dispatch_mounted).
    assert (R2 : resets w2 = S (resets w)).
    { unfold w2. by destruct (dispatch_frame [setCurrentPage "difficulty"]
                               (with_timeouts (timeouts w)
                                  (with_timeouts (S (timeouts w)) (resetGame w))))
        as (_ & _ & -> & _). }
    assert (P2 : currentPage (ui w2) = "difficulty").
    { unfold w2. by rewrite dispatch_ui. }
    rewrite R2. eexists. split; [reflexivity|].
    rewrite dispatch_ui by done. destruct r; done.
Qed.

Lemma play_again_race_witness :
  exists w1 wb,
    step (dispatch [setCurrentPage "results"] mount) (Click PlayAgain) = Some w1 /\
    run w1 [TimeoutFires; ResetSettles (Response true None)] = Some wb /\
    currentPage (ui wb) = "welcome".
Proof.
  destruct (play_again_race (dispatch [setCurrentPage "results"] mount)
              eq_refl eq_refl) as (w1 & S1 & _ & _ & _ & K).
  destruct (K (Response true None)) as (wb & Hrun & Hp).
  exists w1, wb. split; [exact S1|]. split; [exact Hrun|exact Hp].
Defined.

(** *** Start Round *)



(** *** The helpers of the result views *)

Lemma prefix_app needle post : String.prefix needle (needle ++ post) = true.
Proof.
  induction needle as [|c needle IH]; simpl.
  - by destruct post.
  - destruct (ascii_dec c c); [done|congruence].
Qed.

(** A text that holds the needle includes it. *)
Lemma includes_app needle pre post :
  includes needle (pre ++ needle ++ post) = true.
Proof.
  assert (U : forall hay,
             includes needle hay =
             String.prefix needle hay ||
             match hay with
             | EmptyString => false
             | String _ rest => includes needle rest
             end) by (by intros []).
  induction pre as [|c pre IH].
  - change ("" ++ needle ++ post) with (needle ++ post).
    by rewrite U, prefix_app.
  - change (String c pre ++ needle ++ post)
      with (String c (pre ++ needle ++ post)).
    rewrite U, IH. apply orb_true_r.
Qed.

(** X10: [getWinnerColor] throws exactly on a boolean, a number or an
    object; otherwise it answers one of three colours: green as soon as
    the winner text holds 'You Win' (even if it also holds 'Computer'),
    red when it holds 'Computer' and not 'You Win', yellow otherwise, and
    yellow for a missing winner. *)
Theorem getWinnerColor_cases (winner : Val) :
  (getWinnerColor winner = None <->
   (exists b, winner = Bool b) \/ (exists n, winner = Num n) \/
   (exists props, winner = Obj props)) /\
  (forall c, getWinnerColor winner = Some c ->
             c ∈ ["#00b894"; "#e17055"; "#fdcb6e"]) /\
  (forall pre post,
     getWinnerColor (Str (pre ++ "You Win" ++ post)) = Some "#00b894") /\
  (forall s,
     includes "You Win" s = false ->
     getWinnerColor (Str s) =
       Some (if includes "Computer" s then "#e17055" else "#fdcb6e")) /\
  getWinnerColor Null = Some "#fdcb6e" /\
  getWinnerColor Undefined = Some "#fdcb6e".
Proof.
  split; [|split; [|split; [|split]]].
  - unfold getWinnerColor. split.
    + destruct winner; simpl; try (intros _; eauto; fail); try done.
      * destruct (includes "You Win" s); simpl; [done|].
        destruct (includes "Computer" s); done.
      * destruct (existsb _ elems); simpl; [done|].
        destruct (existsb _ elems); done.
    + intros [[b ->]|[[n ->]|[props ->]]]; done.
  - intros c. unfold getWinnerColor.
    assert (G : "#00b894" ∈ ["#00b894"; "#e17055"; "#fdcb6e"])
      by (apply list_elem_of_In; simpl; tauto).
    assert (Rd : "#e17055" ∈ ["#00b894"; "#e17055"; "#fdcb6e"])
      by (apply list_elem_of_In; simpl; tauto).
    assert (Y : "#fdcb6e" ∈ ["#00b894"; "#e17055"; "#fdcb6e"])
      by (apply list_elem_of_In; simpl; tauto).
    destruct winner; simpl; try done.
    + by intros [= <-].
    + by intros [= <-].
    + destruct (includes "You Win" s); simpl; [by intros [= <-]|].
      destruct (includes "Computer" s); by intros [= <-].
    + destruct (existsb _ elems); simpl; [by intros [= <-]|].
      destruct (existsb _ elems); by intros [= <-].
  - intros pre post. unfold getWinnerColor, opt_includes.
    by rewrite (includes_app "You Win" pre post).
  - intros s H. unfold getWinnerColor, opt_includes. rewrite H. simpl.
    by destruct (includes "Computer" s).
  - done.
Qed.

Lemma getWinnerColor_cases_witness :
  getWinnerColor (Str "Computer loses - You Win!") = Some "#00b894" /\
  getWinnerColor (Str "Computer Wins") = Some "#e17055".
Proof.
  destruct (getWinnerColor_cases Null) as (_ & _ & G & R & _).
  split.
  - exact (G "Computer loses - " "!").
  - exact (R "Computer Wins" eq_refl).
Defined.

Lemma emojis_lookup g :
  emojis !! g =
    if decide (g = "Rock") then Some "✊"
    else if decide (g = "Paper") then Some "✋"
    else if decide (g = "Scissors") then Some "✌️"
    else None.
Proof.
  unfold emojis.
  destruct (decide (g = "Rock")) as [->|H1]; [done|].
  rewrite lookup_insert_ne by done.
  destruct (decide (g = "Paper")) as [->|H2]; [done|].
  rewrite lookup_insert_ne by done.
  destruct (decide (g = "Scissors")) as [->|H3]; [done|].
  by rewrite lookup_singleton_ne.
Qed.

(** X11: [getGestureEmoji] is case-sensitive and falls back to the question
    mark: for every key that is not a property name inherited from
    [Object.prototype], it gives a non-empty text, and that text is the
    question mark exactly when the key is none of 'Rock', 'Paper' and
    'Scissors'; for an inherited name it gives the inherited value instead
    of a text. *)
Theorem getGestureEmoji_fallback (gesture : string) :
  (gesture ∉ object_prototype ->
   exists e, getGestureEmoji gesture = Text e /\ e <> "" /\
     (e = "❓" <-> gesture ∉ ["Rock"; "Paper"; "Scissors"])) /\
  (gesture ∈ object_prototype ->
   getGestureEmoji gesture = Inherited gesture).
Proof.
  unfold getGestureEmoji. rewrite emojis_lookup. split.
  - intros Hn.
    destruct (decide (gesture = "Rock")) as [->|H1].
    { eexists. split; [done|]. split; [done|]. split; [done|].
      intros H. exfalso. apply H. apply list_elem_of_In. simpl. tauto. }
    destruct (decide (gesture = "Paper")) as [->|H2].
    { eexists. split; [done|]. split; [done|]. split; [done|].
      intros H. exfalso. apply H. apply list_elem_of_In. simpl. tauto. }
    destruct (decide (gesture = "Scissors")) as [->|H3].
    { eexists. split; [done|]. split; [done|]. split; [done|].
      intros H. exfalso. apply H. apply list_elem_of_In. simpl. tauto. }
    rewrite bool_decide_eq_false_2 by done.
    eexists. split; [done|]. split; [done|]. split; [|done].
    intros _ H. apply list_elem_of_In in H. simpl in H.
    destruct H as [<-|[<-|[<-|[]]]]; done.
  - intros Hin.
    assert (N : gesture <> "Rock" /\ gesture <> "Paper" /\ gesture <> "Scissors").
    { apply list_elem_of_In in Hin. simpl in Hin.
      repeat (destruct Hin as [<-|Hin]; [done|]). done. }
    destruct N as (N1 & N2 & N3).
    destruct (decide (gesture = "Rock")); [done|].
    destruct (decide (gesture = "Paper")); [done|].
    destruct (decide (gesture = "Scissors")); [done|].
    by rewrite bool_decide_eq_true_2.
Qed.

Lemma getGestureEmoji_fallback_witness :
  getGestureEmoji "rock" = Text "❓" /\
  getGestureEmoji "toString" = Inherited "toString".
Proof.
  destruct (getGestureEmoji_fallback "rock") as [F _].
  destruct (getGestureEmoji_fallback "toString") as [_ I].
  split.
  - reflexivity.
  - apply I. apply list_elem_of_In. simpl. tauto.
Defined.

(** ** Properties of the stream-only variant *)

Lemma stream_run_from es : forall w,
  exists w',
    Stream.run w es = Some w' /\
    Stream.requests w' =
      (Stream.requests w ++
       replicate (List.length (filter (fun e => Stream.is_ClickStart e = true) es))
                 Stream.start_request)%list /\
    Stream.error (Stream.ui w') =
      if existsb Stream.is_ImgError es
      then "Can't reach the Python stream at http://127.0.0.1:5002/video_feed"
      else Stream.error (Stream.ui w).
Proof.
  induction es as [|e es IH]; intros w.
  - exists w. split; [done|]. split; [|done]. simpl. by rewrite app_nil_r.
  - destruct e.
    + rewrite filter_cons_True by done.
      destruct (IH {| Stream.ui := Stream.ui w;
                      Stream.requests :=
                        (Stream.requests w ++ [Stream.start_request])%list |})
        as (w' & Hrun & Hreq & Herr).
      exists w'. split; [exact Hrun|]. split; [|exact Herr].
      rewrite Hreq. simpl. by rewrite <- app_assoc.
    + rewrite filter_cons_False by done.
      destruct (IH {| Stream.ui := Stream.img_onError (Stream.ui w);
                      Stream.requests := Stream.requests w |})
        as (w' & Hrun & Hreq & Herr).
      exists w'. split; [exact Hrun|]. split; [exact Hreq|].
      rewrite Herr. simpl. by destruct (existsb Stream.is_ImgError es).
Qed.

(** X12: in the stream-only component every sequence of clicks and image
    failures runs through; the calls of [fetch] it makes are exactly one
    POST /start per click of Start Game (the stream image is loaded by the
    browser, not by [fetch]), and it shows its error text exactly when the
    stream image has failed at least once, never clearing it afterwards. *)
Theorem stream_run (es : list Stream.Event) :
  exists w,
    Stream.run Stream.mount es = Some w /\
    Stream.requests w =
      replicate (List.length (filter (fun e => Stream.is_ClickStart e = true) es))
                {| method := POST; url := "http://127.0.0.1:5002/start" |} /\
    Stream.error_boxes (Stream.render (Stream.ui w)) =
      if existsb Stream.is_ImgError es
      then ["Can't reach the Python stream at http://127.0.0.1:5002/video_feed"]
      else [].
Proof.
  destruct (stream_run_from es Stream.mount) as (w & Hrun & Hreq & Herr).
  exists w. split; [done|]. split; [done|].
  unfold Stream.render. simpl. rewrite Herr.
  by destruct (existsb Stream.is_ImgError es).
Qed.
